(** * Handwriting OCR plugin: the auto-processing pipeline

  A shallow embedding of the change detector and metadata store
  ([auto-processor.ts], [utils.ts]), the remote client ([api.ts]) and the
  processing queue ([queue.ts]), followed by the properties of the
  specification that were checked against them. *)

From Stdlib Require Import Ascii String.
From stdpp Require Import base strings list gmap pretty.

Local Open Scope string_scope.
Local Open Scope list_scope.

(** ** The JavaScript runtime, as far as the plugin uses it *)

Module Js.

(** The outcome of evaluating a function body: a value, or a thrown
    [Error] carrying its message. *)
Inductive Completion (A : Type) : Type :=
| Normal (a : A)
| Throw (message : string).
Global Arguments Normal {A} a.
Global Arguments Throw {A} message.

Global Instance Completion_ret : MRet Completion := λ A a, Normal a.
Global Instance Completion_bind : MBind Completion := λ A B k m,
  match m with
  | Normal a => k a
  | Throw e => Throw e
  end.

(** [try { body } catch (error) { handler }] *)
Definition try_catch {A} (body : Completion A) (handler : string → Completion A)
  : Completion A :=
  match body with
  | Normal a => Normal a
  | Throw e => handler e
  end.

(** Values produced by [JSON.parse]. *)
#[warnings="-register-all"]
Inductive json : Type :=
| JNull
| JBool (b : bool)
| JNum (n : Z)
| JStr (s : string)
| JArr (items : list json)
| JObj (fields : list (string * json)).

Fixpoint assoc (key : string) (fields : list (string * json)) : option json :=
  match fields with
  | [] => None
  | (k, v) :: rest => if decide (k = key) then Some v else assoc key rest
  end.

(** [value.key] for the keys this program reads ([fileHash], [status]),
    which no built-in prototype defines: [None] is [undefined]; reading a
    property of [null] throws a [TypeError]. *)
Definition get_prop (value : json) (key : string) : Completion (option json) :=
  match value with
  | JNull => Throw "TypeError: Cannot read properties of null"
  | JObj fields => Normal (assoc key fields)
  | _ => Normal None
  end.

(** [value === s] for a string [s]. *)
Definition strict_eq_string (value : option json) (s : string) : bool :=
  match value with
  | Some (JStr t) => bool_decide (t = s)
  | _ => false
  end.
Global Arguments strict_eq_string : simpl never.

(** [JSON.parse] (throwing a [SyntaxError] on malformed text) and
    [JSON.stringify(_, null, 2)] belong to the language runtime. *)
Class JsonRuntime := {
  JSON_parse : string → Completion json;
  JSON_stringify : json → string
}.

(** [Boolean(s)] for a string: the empty string is falsy. *)
Definition truthy (s : string) : bool := negb (bool_decide (s = "")).

Definition ascii_lower (c : ascii) : ascii :=
  let n := N_of_ascii c in
  if ((65 <=? n) && (n <=? 90))%N then ascii_of_N (n + 32) else c.

(** [s.toLowerCase()] on the ASCII range. *)
Fixpoint toLowerCase (s : string) : string :=
  match s with
  | EmptyString => EmptyString
  | String c rest => String (ascii_lower c) (toLowerCase rest)
  end.

Fixpoint drop_leading_slashes (s : string) : string :=
  match s with
  | String "/" rest => drop_leading_slashes rest
  | _ => s
  end.

(** [s.replace(/^\/+|\/+$/g, '')]: the leading and the trailing run of
    slashes are removed. *)
Definition strip_slashes (s : string) : string :=
  String.rev (drop_leading_slashes (String.rev (drop_leading_slashes s))).

(** [s.includes(c)] for a single character. *)
Fixpoint includes (s : string) (c : ascii) : bool :=
  match s with
  | EmptyString => false
  | String d rest => bool_decide (d = c) || includes rest c
  end.

(** [s.startsWith(p)] *)
Definition startsWith (s p : string) : bool := String.prefix p s.

End Js.
Import Js.

(** ** The host application: files and the vault *)

Module Obsidian.

Record FileStats := { mtime : N; size : N }.

(** A [TFile] as the plugin reads it. [parent] is [file.parent?.path]. *)
Record TFile := {
  path : string;
  name : string;
  extension : string;
  parent : option string;
  stat : FileStats
}.

Global Instance FileStats_eq_dec : EqDecision FileStats.
Proof. solve_decision. Defined.
Global Instance TFile_eq_dec : EqDecision TFile.
Proof. solve_decision. Defined.

(** What [vault.getAbstractFileByPath] can find at a path. *)
Inductive AbstractFile :=
| FolderNode
| FileNode (content : string).

(** The vault: a store of files addressed by path. *)
Abbreviation Vault := (gmap string AbstractFile).

Definition getAbstractFileByPath (vault : Vault) (p : string)
  : option AbstractFile := vault !! p.

(** [vault.read(file)] *)
Definition vault_read (vault : Vault) (p : string) : Completion string :=
  match vault !! p with
  | Some (FileNode content) => Normal content
  | _ => Throw "File not found"
  end.

(** [vault.create(path, data)] refuses a path that is taken. *)
Definition vault_create (vault : Vault) (p data : string) : Completion Vault :=
  match vault !! p with
  | Some _ => Throw "File already exists."
  | None => Normal (<[p := FileNode data]> vault)
  end.

(** [vault.modify(file, data)] *)
Definition vault_modify (vault : Vault) (p data : string) : Completion Vault :=
  Normal (<[p := FileNode data]> vault).

(** The host derives a file's extension from its name: the text after the
    last dot. *)
Fixpoint after_last_dot (s : string) : option string :=
  match s with
  | EmptyString => None
  | String c rest =>
      match after_last_dot rest with
      | Some e => Some e
      | None => if decide (c = "."%char) then Some rest else None
      end
  end.

Definition extname (fileName : string) : string :=
  default "" (after_last_dot fileName).

End Obsidian.
Import Obsidian.

(** ** utils.ts *)

Module Utils.

(** [validateFileSize]: at most 20MB. *)
Definition maxSize : N := 20 * 1024 * 1024.

Definition validateFileSize (file : TFile) : bool :=
  (size (stat file) <=? maxSize)%N.

(** [getFileHash]: [`${file.stat.mtime}-${file.stat.size}`] *)
Definition getFileHash (file : TFile) : string :=
  pretty (mtime (stat file)) +:+ "-" +:+ pretty (size (stat file)).

Definition metadataFileName (fileName : string) : string :=
  "." +:+ fileName +:+ ".ocr-processed".

(** [getMetadataFilePath] *)
Definition getMetadataFilePath (file : TFile) : string :=
  let dirPath := match parent file with
                 | Some p => if truthy p then p else ""
                 | None => ""
                 end in
  let fileName := name file in
  if truthy dirPath then dirPath +:+ "/" +:+ metadataFileName fileName
  else metadataFileName fileName.

Inductive Status := success | error.

Global Instance Status_eq_dec : EqDecision Status.
Proof. solve_decision. Defined.

Definition Status_to_string (s : Status) : string :=
  match s with
  | success => "success"
  | error => "error"
  end.

Record ProcessedMetadata := {
  processedAt : N;
  fileHash : string;
  status : Status;
  errorMessage : option string
}.

(** The object handed to [JSON.stringify], which leaves out a property
    whose value is [undefined]. *)
Definition metadata_json (m : ProcessedMetadata) : json :=
  JObj ([("processedAt", JNum (Z.of_N (processedAt m)));
         ("fileHash", JStr (fileHash m));
         ("status", JStr (Status_to_string (status m)))]
        ++ match errorMessage m with
           | Some msg => [("errorMessage", JStr msg)]
           | None => []
           end).

End Utils.
Import Utils.

(** ** auto-processor.ts *)

Module AutoProcessor.

Record HandwritingOCRSettings := {
  enableAutoProcessing : bool;
  watchFolder : string
}.

Section WithRuntime.
Context `{!JsonRuntime}.

Definition isInWatchFolder (settings : HandwritingOCRSettings) (file : TFile)
  : bool :=
  let watchFolder := strip_slashes (watchFolder settings) in
  let filePath := path file in
  startsWith filePath (watchFolder +:+ "/")
  || (startsWith filePath watchFolder
      && bool_decide (parent file = Some watchFolder)).

Definition supportedExtensions : list string :=
  ["jpg"; "jpeg"; "png"; "gif"; "bmp"; "tiff"; "tif"; "heic"; "webp"; "pdf"].

Definition isSupportedFile (file : TFile) : bool :=
  bool_decide (toLowerCase (extension file) ∈ supportedExtensions).

Definition isProcessed (vault : Vault) (file : TFile) : Completion bool :=
  let metadataPath := getMetadataFilePath file in
  match getAbstractFileByPath vault metadataPath with
  | Some (FileNode _) =>
      try_catch
        (content ← vault_read vault metadataPath;
         metadata ← JSON_parse content;
         let currentHash := getFileHash file in
         storedHash ← get_prop metadata "fileHash";
         if strict_eq_string storedHash currentHash
         then (storedStatus ← get_prop metadata "status";
               mret (strict_eq_string storedStatus "success"))
         else mret false)
        (λ _, Normal false)
  | _ => Normal false
  end.

Definition shouldProcess (settings : HandwritingOCRSettings)
    (vault : Vault) (file : TFile) : Completion bool :=
  if negb (enableAutoProcessing settings) || negb (truthy (watchFolder settings))
  then Normal false
  else if negb (isInWatchFolder settings file) then Normal false
  else if negb (isSupportedFile file) then Normal false
  else if negb (validateFileSize file) then Normal false
  else (processed ← isProcessed vault file; mret (negb processed)).

(** [markAsProcessed]; [now] is [Date.now()]. The result is the vault
    afterwards and what was written to [console.error]. *)
Definition markAsProcessed (vault : Vault) (file : TFile) (st : Status)
    (message : option string) (now : N) : Vault * list string :=
  let metadataPath := getMetadataFilePath file in
  let metadata := {| processedAt := now;
                     fileHash := getFileHash file;
                     status := st;
                     errorMessage := message |} in
  let text := JSON_stringify (metadata_json metadata) in
  let written :=
    match getAbstractFileByPath vault metadataPath with
    | Some (FileNode _) => vault_modify vault metadataPath text
    | _ => vault_create vault metadataPath text
    end in
  match written with
  | Normal vault' => (vault', [])
  | Throw _ =>
      (vault, ["Failed to create metadata file for " +:+ path file +:+ ":"])
  end.

(** The four checks [shouldProcess] makes before it looks at the
    sidecar. *)
Definition eligible (settings : HandwritingOCRSettings) (file : TFile)
  : bool :=
  enableAutoProcessing settings && truthy (watchFolder settings)
  && isInWatchFolder settings file && isSupportedFile file
  && validateFileSize file.

(** The file is under [folder]: its path continues [folder/], or it
    continues [folder] and the file's parent is [folder]. *)
Definition residesUnder (folder : string) (file : TFile) : Prop :=
  (∃ rest, path file = (folder +:+ "/") +:+ rest)
  ∨ ((∃ rest, path file = folder +:+ rest) ∧ parent file = Some folder).

(** The sidecar of [file] holds a record with status [success] whose
    [fileHash] is the file's current fingerprint. *)
Definition hasSuccessRecord (vault : Vault) (file : TFile) : Prop :=
  ∃ content metadata,
    vault !! getMetadataFilePath file = Some (FileNode content)
    ∧ JSON_parse content = Normal metadata
    ∧ get_prop metadata "fileHash" = Normal (Some (JStr (getFileHash file)))
    ∧ get_prop metadata "status" = Normal (Some (JStr "success")).

(** [file] after a modification that left it with the stats [st]. *)
Definition modified (file : TFile) (st : FileStats) : TFile :=
  {| path := path file; name := name file; extension := extension file;
     parent := parent file; stat := st |}.

End WithRuntime.

End AutoProcessor.
Import AutoProcessor.

(** ** api.ts *)

Module Api.

(** The response of [requestUrl]. *)
Record Response (A : Type) := { resp_status : N; resp_json : A }.
Global Arguments resp_status {A} _.
Global Arguments resp_json {A} _.

Record UploadResponse := { upload_id : string; upload_status : string }.

Record DocumentStatus := {
  doc_id : string;
  doc_status : string;
  doc_pages : option N;
  doc_error : option string
}.

Record DocumentResult := {
  result_id : string;
  result_page_count : N;
  result_results : list (N * string);
  result_error : option string
}.

(** The remote service, as one processing attempt sees it: the reply to
    the upload, to the n-th status request and to the result request. A
    request that fails on the network throws. *)
Record Remote := {
  upload_reply : Completion (Response UploadResponse);
  status_reply : nat → Completion (Response DocumentStatus);
  result_reply : Completion (Response DocumentResult)
}.

(** What a processing attempt does, in the order it does it. *)
Inductive Action :=
| PostDocument
| Sleep (ms : N)
| GetStatus (documentId : string)
| GetResult (documentId : string).

(** An asynchronous computation: it extends the trace of actions and
    completes normally or by throwing. *)
Definition Async (A : Type) : Type := list Action → list Action * Completion A.

Global Instance Async_ret : MRet Async := λ A a trace, (trace, Normal a).
Global Instance Async_bind : MBind Async := λ A B k m trace,
  match m trace with
  | (trace', Normal a) => k a trace'
  | (trace', Throw e) => (trace', Throw e)
  end.

Definition throw {A} (message : string) : Async A := λ trace, (trace, Throw message).

Definition perform {A} (a : Action) (reply : Completion A) : Async A :=
  λ trace, (trace ++ [a], reply).

(** [new Promise(resolve => setTimeout(resolve, ms))] *)
Definition sleep (ms : N) : Async unit := perform (Sleep ms) (Normal ()).

Definition uploadDocument (remote : Remote) : Async string :=
  response ← perform PostDocument (upload_reply remote);
  if decide (resp_status response = 403%N) then throw "Insufficient credits"
  else if decide (resp_status response = 415%N) then throw "Unsupported file type"
  else if decide (resp_status response = 413%N) then throw "File too large (max 20MB)"
  else if decide (resp_status response = 401%N) then throw "Invalid API key"
  else if decide (resp_status response ≠ 201%N)
       then throw ("Upload failed: " +:+ pretty (resp_status response))
  else mret (upload_id (resp_json response)).

Definition checkStatus (remote : Remote) (n : nat) (documentId : string)
  : Async DocumentStatus :=
  response ← perform (GetStatus documentId) (status_reply remote n);
  if decide (resp_status response = 401%N) then throw "Invalid API key"
  else if decide (resp_status response ≠ 200%N)
       then throw ("Status check failed: " +:+ pretty (resp_status response))
  else mret (resp_json response).

Definition getResult (remote : Remote) (documentId : string)
  : Async DocumentResult :=
  response ← perform (GetResult documentId) (result_reply remote);
  if decide (resp_status response = 401%N) then throw "Invalid API key"
  else if decide (resp_status response ≠ 200%N)
       then throw ("Failed to get result: " +:+ pretty (resp_status response))
  else
    let data := resp_json response in
    match result_error data with
    | Some e => if truthy e then throw ("OCR failed: " +:+ e) else mret data
    | None => mret data
    end.

(** [status.error || 'Processing failed'] *)
Definition failureMessage (status : DocumentStatus) : string :=
  match doc_error status with
  | Some e => if truthy e then e else "Processing failed"
  | None => "Processing failed"
  end.

Definition maxAttempts : nat := 60.

(** The loop [while (attempts < maxAttempts)] of [processDocument];
    [remaining] is [maxAttempts - attempts], and leaving the loop throws
    the timeout. *)
Fixpoint pollLoop (remote : Remote) (documentId : string)
    (remaining attempts : nat) : Async DocumentResult :=
  match remaining with
  | 0 => throw "Processing timeout"
  | S remaining' =>
      _ ← sleep 2000;
      status ← checkStatus remote attempts documentId;
      if decide (doc_status status = "processed") then getResult remote documentId
      else if decide (doc_status status = "failed")
           then throw (failureMessage status)
      else pollLoop remote documentId remaining' (S attempts)
  end.

Definition processDocument (remote : Remote) : Async DocumentResult :=
  documentId ← uploadDocument remote;
  pollLoop remote documentId maxAttempts 0.

(** [n] polls of the job, each after a wait of two seconds. *)
Fixpoint rounds (n : nat) (documentId : string) : list Action :=
  match n with
  | 0 => []
  | S n' => Sleep 2000 :: GetStatus documentId :: rounds n' documentId
  end.

(** The number of status requests in a trace. *)
Definition isPoll (a : Action) : bool :=
  match a with
  | GetStatus _ => true
  | _ => false
  end.

Definition polls (trace : list Action) : nat := length (List.filter isPoll trace).

(** The n-th status request is answered with HTTP 200 and the job status
    [st]. *)
Definition reports (remote : Remote) (n : nat) (st : string) : Prop :=
  ∃ response, status_reply remote n = Normal response
    ∧ resp_status response = 200%N
    ∧ doc_status (resp_json response) = st.

End Api.

(** ** queue.ts *)

Module ProcessingQueue.

(** How the promise returned by [onProcess] settles. *)
Inductive Outcome :=
| Resolved
| Rejected (reason : string).

(** The two fields of the class, together with what the runtime holds
    while [processNext] is suspended in [await this.onProcess(file)]:
    [inflight] are the callbacks invoked and not yet settled, [started] all
    invocations so far in order, [pushed] the files appended by
    [this.queue.push], [console] the output of [console.error]. *)
Record State := {
  queue : list TFile;
  processing : bool;
  inflight : list TFile;
  started : list TFile;
  pushed : list TFile;
  console : list string
}.

Definition initial : State :=
  {| queue := []; processing := false; inflight := [];
     started := []; pushed := []; console := [] |}.

(** [processNext], up to its first [await]. *)
Definition processNext (s : State) : State :=
  match queue s with
  | [] =>
      {| queue := []; processing := false; inflight := inflight s;
         started := started s; pushed := pushed s; console := console s |}
  | file :: rest =>
      {| queue := rest; processing := true; inflight := inflight s ++ [file];
         started := started s ++ [file]; pushed := pushed s;
         console := console s |}
  end.

(** [add] *)
Definition add (file : TFile) (s : State) : State :=
  if existsb (λ f, bool_decide (path f = path file)) (queue s) then s
  else
    let s' := {| queue := queue s ++ [file]; processing := processing s;
                 inflight := inflight s; started := started s;
                 pushed := pushed s ++ [file]; console := console s |} in
    if negb (processing s') then processNext s' else s'.

(** [clear] *)
Definition clear (s : State) : State :=
  {| queue := []; processing := false; inflight := inflight s;
     started := started s; pushed := pushed s; console := console s |}.

(** The callbacks in flight without (the oldest invocation on) [file]. *)
Fixpoint settled (file : TFile) (l : list TFile) : option (list TFile) :=
  match l with
  | [] => None
  | f :: rest =>
      if decide (f = file) then Some rest else cons f <$> settled file rest
  end.

(** The rest of [processNext] once the callback invoked on [file] has
    settled: a rejection is caught and logged, then [processNext] is
    called again. Only a callback that is in flight can settle. *)
Definition settle (file : TFile) (o : Outcome) (s : State) : option State :=
  rest ← settled file (inflight s);
  let logged := match o with
                | Resolved => console s
                | Rejected reason =>
                    console s ++ ["Failed to process " +:+ path file +:+ ": "
                                  +:+ reason]
                end in
  Some (processNext {| queue := queue s; processing := processing s;
                       inflight := rest; started := started s;
                       pushed := pushed s; console := logged |}).

Inductive Event :=
| Add (file : TFile)
| Clear
| Settle (file : TFile) (o : Outcome).

Definition step (e : Event) (s : State) : option State :=
  match e with
  | Add file => Some (add file s)
  | Clear => Some (clear s)
  | Settle file o => settle file o s
  end.

Fixpoint run (events : list Event) (s : State) : option State :=
  match events with
  | [] => Some s
  | e :: rest => s' ← step e s; run rest s'
  end.

Definition is_clear (e : Event) : bool :=
  match e with
  | Clear => true
  | _ => false
  end.

(** Settle the oldest callback in flight, once per outcome given. *)
Fixpoint drain (outcomes : list Outcome) (s : State) : option State :=
  match outcomes with
  | [] => Some s
  | o :: rest =>
      match inflight s with
      | [] => Some s
      | file :: _ => s' ← settle file o s; drain rest s'
      end
  end.

(** How many times the callback has been invoked on a path. *)
Definition invocations (p : string) (s : State) : nat :=
  length (filter (λ f, path f = p) (started s)).

(** What holds of every state the queue can reach, [clear] included. *)
Definition coherent (s : State) : Prop :=
  NoDup (path <$> queue s)
  ∧ (queue s ≠ [] → processing s = true)
  ∧ (processing s = true → inflight s ≠ []).

(** As long as [clear] is not called: one callback in flight while the
    queue is busy, nothing pending and nothing in flight while it is idle,
    and the files pushed are those invoked followed by those pending. *)
Definition serial (s : State) : Prop :=
  (if processing s then length (inflight s) = 1
   else inflight s = [] ∧ queue s = [])
  ∧ pushed s = started s ++ queue s.

End ProcessingQueue.
Import ProcessingQueue.

(** ** Concrete files, vaults and services used in the examples *)

Module Examples.
Import Api.

Definition settings : HandwritingOCRSettings :=
  {| enableAutoProcessing := true; watchFolder := "/Inbox/" |}.

Definition scanA : TFile :=
  {| path := "Inbox/a.png"; name := "a.png"; extension := "PNG";
     parent := Some "Inbox";
     stat := {| mtime := 1700000000000; size := 1024 |} |}.

Definition scanB : TFile :=
  {| path := "Inbox/b.pdf"; name := "b.pdf"; extension := "pdf";
     parent := Some "Inbox";
     stat := {| mtime := 1700000000500; size := 2048 |} |}.

(** [scanA] after it was saved again. *)
Definition savedAgain : FileStats := {| mtime := 1700000009000; size := 4096 |}.

Definition sidecarA : TFile :=
  {| path := "Inbox/.a.png.ocr-processed"; name := ".a.png.ocr-processed";
     extension := "ocr-processed"; parent := Some "Inbox";
     stat := {| mtime := 1700000001000; size := 96 |} |}.

Definition successRecord : ProcessedMetadata :=
  {| processedAt := 1700000001000; fileHash := "1700000000000-1024";
     status := success; errorMessage := None |}.

Definition errorRecord : ProcessedMetadata :=
  {| processedAt := 1700000001000; fileHash := "1700000000000-1024";
     status := error; errorMessage := Some "Insufficient credits" |}.

(** A runtime that knows the texts of the two records above and [null],
    and rejects every other text as a syntax error. *)
Definition successText : string := "<success record of a.png>".
Definition errorText : string := "<error record of a.png>".

Definition tableRuntime : JsonRuntime :=
  {| JSON_parse := λ text,
       if decide (text = successText) then Normal (metadata_json successRecord)
       else if decide (text = errorText) then Normal (metadata_json errorRecord)
       else if decide (text = "null") then Normal JNull
       else Throw "SyntaxError: Unexpected token";
     JSON_stringify := λ value,
       match get_prop value "status" with
       | Normal (Some (JStr "success")) => successText
       | _ => errorText
       end |}.

Definition withRecord (text : string) : Vault :=
  {[ "Inbox/.a.png.ocr-processed" := FileNode text ]}.

Definition uploaded (code : N) : Completion (Response UploadResponse) :=
  Normal {| resp_status := code;
            resp_json := {| upload_id := "doc-1"; upload_status := "new" |} |}.

Definition polled (st : string) (err : option string)
  : Completion (Response DocumentStatus) :=
  Normal {| resp_status := 200;
            resp_json := {| doc_id := "doc-1"; doc_status := st;
                            doc_pages := None; doc_error := err |} |}.

Definition transcript : DocumentResult :=
  {| result_id := "doc-1"; result_page_count := 1;
     result_results := [(1%N, "hello")]; result_error := None |}.

(** A job that stays in [processing], one that is done at the third poll
    and one that fails at the third poll without an error text. *)
Definition stuck : Remote :=
  {| upload_reply := uploaded 201;
     status_reply := λ _, polled "processing" None;
     result_reply := Normal {| resp_status := 200; resp_json := transcript |} |}.

Definition doneAtThird : Remote :=
  {| upload_reply := uploaded 201;
     status_reply := λ n, if (n <? 2)%nat then polled "processing" None
                          else polled "processed" None;
     result_reply := Normal {| resp_status := 200; resp_json := transcript |} |}.

Definition failsAtThird : Remote :=
  {| upload_reply := uploaded 201;
     status_reply := λ n, if (n <? 2)%nat then polled "processing" None
                          else polled "failed" (Some "");
     result_reply := Normal {| resp_status := 200; resp_json := transcript |} |}.

Definition refused (code : N) : Remote :=
  {| upload_reply := uploaded code;
     status_reply := λ _, polled "processing" None;
     result_reply := Normal {| resp_status := 200; resp_json := transcript |} |}.

End Examples.

(** ** The rest of the runtime: text and byte arrays *)

Module Text.

Definition CR : ascii := "013"%char.
Definition LF : ascii := "010"%char.

(** The text [\r\n]. *)
Definition CRLF : string := String CR (String LF "").

(** The text of one double quote. *)
Definition quote : string := String "034"%char "".

(** [s.endsWith(suffix)] *)
Fixpoint endsWith (s suffix : string) : bool :=
  bool_decide (s = suffix)
  || match s with
     | EmptyString => false
     | String _ rest => endsWith rest suffix
     end.

(** [s.includes(part)] for a text [part]. *)
Fixpoint includesText (s part : string) : bool :=
  startsWith s part
  || match s with
     | EmptyString => false
     | String _ rest => includesText rest part
     end.

(** A run of [n] slashes. *)
Fixpoint slashes (n : nat) : string :=
  match n with
  | 0 => ""
  | S n' => String "/" (slashes n')
  end.

(** A [Uint8Array]. *)
Abbreviation Uint8Array := (list ascii).

(** [new TextEncoder().encode(s)], a text being its UTF-8 bytes. *)
Definition encode (s : string) : Uint8Array := list_ascii_of_string s.

(** [new Uint8Array(n)] *)
Definition zeroed (n : nat) : Uint8Array := replicate n zero.

(** [target.set(source, offset)], which refuses a source that does not
    fit. *)
Definition set (target source : Uint8Array) (offset : nat)
  : Completion Uint8Array :=
  if decide (offset + length source ≤ length target)%nat
  then Normal (take offset target ++ source
               ++ drop (offset + length source) target)
  else Throw "RangeError: offset is out of bounds".

End Text.
Import Text.

(** ** queue.ts, the last method *)

Module QueueLength.

(** [getQueueLength] *)
Definition getQueueLength (s : State) : nat := length (queue s).

End QueueLength.
Import QueueLength.

(** ** utils.ts, the file helpers *)

Module FileHelpers.

Definition SUPPORTED_EXTENSIONS : list string :=
  [".jpg"; ".jpeg"; ".png"; ".gif"; ".bmp"; ".tiff"; ".tif"; ".heic"; ".webp";
   ".pdf"].

(** [isSupportedFile(fileName)] of utils.ts *)
Definition isSupportedFile (fileName : string) : bool :=
  let lowerName := toLowerCase fileName in
  existsb (λ ext, endsWith lowerName ext) SUPPORTED_EXTENSIONS.

Definition mimeTypes : list (string * string) :=
  [("jpg", "image/jpeg"); ("jpeg", "image/jpeg"); ("png", "image/png");
   ("gif", "image/gif"); ("bmp", "image/bmp"); ("tiff", "image/tiff");
   ("tif", "image/tiff"); ("heic", "image/heic"); ("webp", "image/webp");
   ("pdf", "application/pdf")].

Fixpoint lookupType (key : string) (table : list (string * string))
  : option string :=
  match table with
  | [] => None
  | (k, v) :: rest => if decide (k = key) then Some v else lookupType key rest
  end.

(** [getMimeType]: [mimeTypes[extension.toLowerCase()] ||
    'application/octet-stream'], for the keys the table itself defines or
    that nothing defines. *)
Definition getMimeType (ext : string) : string :=
  match lookupType (toLowerCase ext) mimeTypes with
  | Some type => if truthy type then type else "application/octet-stream"
  | None => "application/octet-stream"
  end.

(** A browser [File]: its name, its type and its bytes. *)
Record File := {
  file_name : string;
  file_type : string;
  file_bytes : Uint8Array
}.

(** [fileToBlob]: [vault.readBinary] fails when nothing can be read at the
    file's path. *)
Definition fileToBlob (vault : Vault) (file : TFile) : Completion File :=
  arrayBuffer ← vault_read vault (path file);
  mret {| file_name := name file;
          file_type := getMimeType (extension file);
          file_bytes := encode arrayBuffer |}.

End FileHelpers.

(** ** api.ts, the body of the upload *)

Module Requests.
Import Api FileHelpers.

(** The loop [for (const part of parts) { result.set(part, offset); offset
    += part.length; }]. *)
Fixpoint copyParts (parts : list Uint8Array) (result : Uint8Array)
    (offset : nat) : Completion Uint8Array :=
  match parts with
  | [] => Normal result
  | part :: rest =>
      result' ← set result part offset;
      copyParts rest result' (offset + length part)
  end.

(** [createMultipartFormData] *)
Definition createMultipartFormData (boundary : string) (file : File)
    (fileBuffer : Uint8Array) : Completion Uint8Array :=
  let parts :=
    [ encode ("--" +:+ boundary +:+ CRLF);
      encode ("Content-Disposition: form-data; name=" +:+ quote +:+ "action"
              +:+ quote +:+ CRLF +:+ CRLF);
      encode ("transcribe" +:+ CRLF);
      encode ("--" +:+ boundary +:+ CRLF);
      encode ("Content-Disposition: form-data; name=" +:+ quote +:+ "file"
              +:+ quote +:+ "; filename=" +:+ quote +:+ file_name file
              +:+ quote +:+ CRLF);
      encode ("Content-Type: " +:+ file_type file +:+ CRLF +:+ CRLF);
      fileBuffer;
      encode CRLF;
      encode ("--" +:+ boundary +:+ "--" +:+ CRLF) ] in
  let totalLength := foldl (λ sum part, sum + length part)%nat 0%nat parts in
  let result := zeroed totalLength in
  copyParts parts result 0.

(** The text that precedes the file's bytes in the body, and the one that
    follows them. *)
Definition bodyHead (boundary : string) (file : File) : string :=
  "--" +:+ boundary +:+ CRLF
  +:+ "Content-Disposition: form-data; name=" +:+ quote +:+ "action" +:+ quote
  +:+ CRLF +:+ CRLF +:+ "transcribe" +:+ CRLF
  +:+ "--" +:+ boundary +:+ CRLF
  +:+ "Content-Disposition: form-data; name=" +:+ quote +:+ "file" +:+ quote
  +:+ "; filename=" +:+ quote +:+ file_name file +:+ quote +:+ CRLF
  +:+ "Content-Type: " +:+ file_type file +:+ CRLF +:+ CRLF.

Definition bodyTail (boundary : string) : string :=
  CRLF +:+ "--" +:+ boundary +:+ "--" +:+ CRLF.

End Requests.

(** ** auto-processor.ts, one processing attempt *)

Module Attempt.

(** [settings.autoProcessingAction] *)
Inductive AutoProcessingAction := new_note | append_source.

Global Instance AutoProcessingAction_eq_dec : EqDecision AutoProcessingAction.
Proof. solve_decision. Defined.

Global Instance AbstractFile_eq_dec : EqDecision AbstractFile.
Proof. solve_decision. Defined.

(** An output action handed to [processFile]: what it leaves in the vault
    and how its promise settles. *)
Definition OutputAction : Type := TFile → Vault → Vault * Completion unit.

(** What one call of [processFile] leaves behind. *)
Record Run := {
  vaultAfter : Vault;
  notices : list string;
  errors : list string;
  outcome : Completion unit
}.

Section WithRuntime.
Context `{!JsonRuntime}.

(** [processFile]; [now] is [Date.now()] at the time the record is
    written, and the file keeps its stats during the attempt. *)
Definition processFile (action : AutoProcessingAction) (vault : Vault)
    (file : TFile) (extractToNewNote appendToSourceNote : OutputAction)
    (now : N) : Run :=
  let notice := "Auto-processing: " +:+ name file in
  let ran := if decide (action = new_note) then extractToNewNote file vault
             else appendToSourceNote file vault in
  match ran.2 with
  | Normal _ =>
      let written := markAsProcessed ran.1 file success None now in
      {| vaultAfter := written.1; notices := [notice]; errors := written.2;
         outcome := Normal () |}
  | Throw message =>
      let written := markAsProcessed ran.1 file error (Some message) now in
      {| vaultAfter := written.1; notices := [notice];
         errors := ("Auto-processing failed for " +:+ path file +:+ ": "
                    +:+ message) :: written.2;
         outcome := Throw message |}
  end.

(** The listener main.ts registers for the vault's [create] and [modify]
    events, with the auto-processor in place. *)
Definition onVaultEvent (settings : HandwritingOCRSettings) (vault : Vault)
    (file : TFile) (s : State) : State :=
  match shouldProcess settings vault file with
  | Normal true => add file s
  | _ => s
  end.

End WithRuntime.

End Attempt.

(** ** main.ts, the messages shown to the user *)

Module Messages.

(** [getUserFriendlyErrorMessage], given [error.message]. *)
Definition getUserFriendlyErrorMessage (errorMessage : string) : string :=
  let message := toLowerCase errorMessage in
  if includesText message "invalid api key" || includesText message "401"
     || includesText message "unauthorized"
  then "API key invalid. Please update your API key in plugin settings."
  else if includesText message "insufficient credits"
          || includesText message "403"
  then "Insufficient credits. Please check your account balance or upgrade your plan."
  else if includesText message "unsupported file type"
          || includesText message "415"
  then "Unsupported file format. Please use JPG, PNG, PDF, or other supported image formats."
  else if includesText message "file too large" || includesText message "413"
  then "File too large. Maximum file size is 20MB."
  else if includesText message "timeout"
          || includesText message "processing timeout"
  then "Processing timeout. The document may be too complex or the service is busy. Please try again."
  else if includesText message "network" || includesText message "fetch"
  then "Network error. Please check your internet connection and try again."
  else "OCR failed: " +:+ errorMessage.

(** The notice for a failure text that mentions the HTTP status [code] and
    none of the phrases above. *)
Definition noticeForStatus (code : N) (errorMessage : string) : string :=
  if decide (code = 401%N)
  then "API key invalid. Please update your API key in plugin settings."
  else if decide (code = 403%N)
  then "Insufficient credits. Please check your account balance or upgrade your plan."
  else if decide (code = 415%N)
  then "Unsupported file format. Please use JPG, PNG, PDF, or other supported image formats."
  else if decide (code = 413%N)
  then "File too large. Maximum file size is 20MB."
  else "OCR failed: " +:+ errorMessage.

(** The HTTP status codes. *)
Definition statusCodes : list N := N.of_nat <$> seq 100 500.

End Messages.

(** ** main.ts, the command that copies the text of a file *)

Module Commands.
Import Api FileHelpers Messages.

(** [parts.join(separator)] *)
Fixpoint join (separator : string) (parts : list string) : string :=
  match parts with
  | [] => ""
  | [part] => part
  | part :: rest => part +:+ separator +:+ join separator rest
  end.

(** What one call of [extractToClipboard] leaves behind: the notices
    shown, the text written to the clipboard if any, and the requests
    sent. *)
Record Extraction := {
  shown : list string;
  clipboard : option string;
  requests : list Action
}.

(** [extractToClipboard]; [api] is [this.api], and [writeText] says how
    [navigator.clipboard.writeText] settles. *)
Definition extractToClipboard (api : option Remote) (vault : Vault)
    (file : TFile) (writeText : string → Completion unit) : Extraction :=
  match api with
  | None =>
      {| shown := ["Please configure your API key in settings"];
         clipboard := None; requests := [] |}
  | Some remote =>
      if negb (validateFileSize file)
      then {| shown := ["File too large (max 20MB)"]; clipboard := None;
              requests := [] |}
      else
        let notice := "Processing with Handwriting OCR..." in
        match fileToBlob vault file with
        | Throw e =>
            {| shown := [notice; getUserFriendlyErrorMessage e];
               clipboard := None; requests := [] |}
        | Normal fileBlob =>
            let attempt := processDocument remote [] in
            match attempt.2 with
            | Throw e =>
                {| shown := [notice; getUserFriendlyErrorMessage e];
                   clipboard := None; requests := attempt.1 |}
            | Normal result =>
                let text := join (String LF (String LF ""))
                              (map snd (result_results result)) in
                match writeText text with
                | Throw e =>
                    {| shown := [notice; getUserFriendlyErrorMessage e];
                       clipboard := None; requests := attempt.1 |}
                | Normal _ =>
                    {| shown := [notice; "Text copied to clipboard!"];
                       clipboard := Some text; requests := attempt.1 |}
                end
            end
        end
  end.

End Commands.

(** ** More concrete values for the examples *)

Module MoreExamples.
Import Examples Attempt.

(** An output action that leaves a note in the vault, and one that fails
    for lack of credits. *)
Definition writesNote : OutputAction := λ file vault,
  (<["OCR - a.md" := FileNode "# OCR Extract from a"]> vault, Normal ()).

Definition outOfCredits : OutputAction := λ file vault,
  (vault, Throw "Insufficient credits").

Definition noteA : TFile :=
  {| path := "OCR - a.md"; name := "OCR - a.md"; extension := "md";
     parent := None; stat := {| mtime := 1700000002000; size := 20 |} |}.

(** A vault in which a folder stands where the sidecar of [scanA] goes. *)
Definition blocked : Vault := {[ "Inbox/.a.png.ocr-processed" := FolderNode ]}.

(** [scanA] grown beyond the limit. *)
Definition tooLarge : TFile := modified scanA {| mtime := 1; size := 20971521 |}.

End MoreExamples.

(** * Properties of the processing queue *)

Section QueueFacts.

Implicit Types (s : State) (file : TFile) (o : Outcome).

Lemma settled_head file l : settled file (file :: l) = Some l.
Proof. simpl. by rewrite decide_True. Qed.

Lemma settled_length file l rest :
  settled file l = Some rest → length l = S (length rest).
Proof.
  revert rest. induction l as [|f l IH]; intros rest; simpl; [done|].
  case_decide.
  - by intros [= ->].
  - destruct (settled file l) as [l'|]; simpl; [|done].
    intros [= <-]. simpl. f_equal. by apply IH.
Qed.

Lemma settled_elem file l : file ∈ l → is_Some (settled file l).
Proof.
  induction l as [|f l IH]; [by intros ?%elem_of_nil|].
  intros [->|Hin]%elem_of_cons; simpl.
  - rewrite decide_True; eauto.
  - case_decide; [eauto|]. destruct (IH Hin) as [l' ->]. simpl. eauto.
Qed.

Lemma coherent_initial : coherent initial.
Proof. repeat split; simpl; try done. constructor. Qed.

Lemma coherent_processNext s :
  NoDup (path <$> queue s) → coherent (processNext s).
Proof.
  unfold processNext, coherent. destruct (queue s) as [|f q]; simpl.
  - intros _. repeat split; try done. constructor.
  - intros [_ Hq]%NoDup_cons. repeat split; try done.
    intros _. by destruct (inflight s).
Qed.

Lemma pending_existsb file q :
  existsb (λ f, bool_decide (path f = path file)) q = true
  ↔ path file ∈ path <$> q.
Proof.
  rewrite existsb_exists, list_elem_of_fmap. split.
  - intros (f & Hin & Heq). apply bool_decide_eq_true in Heq.
    exists f. split; [done|]. by apply list_elem_of_In.
  - intros (f & Heq & Hin). exists f. split; [by apply list_elem_of_In|].
    by apply bool_decide_eq_true.
Qed.

Lemma add_pending file s :
  path file ∈ path <$> queue s → add file s = s.
Proof. intros Hin%pending_existsb. unfold add. by rewrite Hin. Qed.

Lemma add_absent file s :
  path file ∉ path <$> queue s →
  add file s =
    let s' := {| queue := queue s ++ [file]; processing := processing s;
                 inflight := inflight s; started := started s;
                 pushed := pushed s ++ [file]; console := console s |} in
    if processing s then s' else processNext s'.
Proof.
  intros Hnin. unfold add.
  destruct (existsb _ (queue s)) eqn:E.
  - by apply pending_existsb in E.
  - simpl. by destruct (processing s).
Qed.

Lemma coherent_add file s : coherent s → coherent (add file s).
Proof.
  intros (Hnd & Hq & Hp).
  destruct (decide (path file ∈ path <$> queue s)) as [Hin|Hnin].
  - by rewrite add_pending.
  - rewrite add_absent by done. simpl.
    assert (NoDup (path <$> queue s ++ [file])) as Hnd'.
    { rewrite fmap_app. apply NoDup_app. split; [done|split].
      - intros p Hp1 Hp2. simpl in Hp2. apply list_elem_of_singleton in Hp2.
        by subst.
      - simpl. apply NoDup_singleton. }
    destruct (processing s) eqn:E.
    + split; [done|]. split; simpl; [done|]. intros _. by apply Hp.
    + by apply coherent_processNext.
Qed.

Lemma coherent_clear s : coherent (clear s).
Proof. repeat split; simpl; try done. constructor. Qed.

Lemma coherent_settle file o s s' :
  coherent s → settle file o s = Some s' → coherent s'.
Proof.
  intros (Hnd & _) Hs. unfold settle in Hs.
  destruct (settled file (inflight s)); simpl in Hs; [|done].
  injection Hs as <-. by apply coherent_processNext.
Qed.

Lemma coherent_step e s s' : coherent s → step e s = Some s' → coherent s'.
Proof.
  destruct e as [file| |file o]; simpl.
  - intros ? [= <-]. by apply coherent_add.
  - intros ? [= <-]. apply coherent_clear.
  - apply coherent_settle.
Qed.

Lemma coherent_run events s s' :
  coherent s → run events s = Some s' → coherent s'.
Proof.
  revert s. induction events as [|e events IH]; intros s Hs; simpl.
  - by intros [= <-].
  - destruct (step e s) as [s1|] eqn:E; simpl; [|done].
    apply IH. by eapply coherent_step.
Qed.

Lemma reachable_coherent events s : run events initial = Some s → coherent s.
Proof. apply coherent_run, coherent_initial. Qed.

End QueueFacts.

Section QueueOrder.

Implicit Types (s : State) (file : TFile) (o : Outcome).

Lemma serial_initial : serial initial.
Proof. by repeat split. Qed.

Lemma serial_processNext s :
  inflight s = [] → pushed s = started s ++ queue s → serial (processNext s).
Proof.
  intros Hin Hp. unfold processNext, serial.
  destruct (queue s) as [|f q]; simpl.
  - by rewrite Hin.
  - rewrite Hin. split; [done|]. by rewrite Hp, <-app_assoc.
Qed.

Lemma serial_add file s : serial s → serial (add file s).
Proof.
  intros [Hs Hp].
  destruct (decide (path file ∈ path <$> queue s)) as [Hin|Hnin].
  - by rewrite add_pending.
  - rewrite add_absent by done. simpl.
    destruct (processing s) eqn:E.
    + unfold serial. simpl. split; [done|].
      by rewrite Hp, app_assoc.
    + destruct Hs as [Hi Hq].
      apply serial_processNext; simpl; [done|].
      by rewrite Hp, app_assoc.
Qed.

Lemma serial_settle file o s s' :
  serial s → settle file o s = Some s' → serial s'.
Proof.
  intros [Hs Hp] Hset. unfold settle in Hset.
  destruct (settled file (inflight s)) as [rest|] eqn:E; simpl in Hset; [|done].
  injection Hset as <-. apply settled_length in E.
  apply serial_processNext; simpl; [|done].
  destruct (processing s).
  - rewrite Hs in E. by destruct rest.
  - destruct Hs as [Hi _]. by rewrite Hi in E.
Qed.

Lemma serial_run events s s' :
  forallb (λ e, negb (is_clear e)) events = true →
  serial s → run events s = Some s' → serial s'.
Proof.
  revert s. induction events as [|e events IH]; intros s Hnc Hs; simpl.
  - by intros [= <-].
  - simpl in Hnc. apply andb_prop in Hnc as [He Hnc].
    destruct (step e s) as [s1|] eqn:E; simpl; [|done].
    apply IH; [done|].
    destruct e as [file| |file o]; simpl in *.
    + injection E as <-. by apply serial_add.
    + done.
    + by eapply serial_settle.
Qed.

(** Without [clear], at most one callback is in flight in every reachable
    state. *)
Lemma one_in_flight_without_clear events s :
  forallb (λ e, negb (is_clear e)) events = true →
  run events initial = Some s → (length (inflight s) ≤ 1)%nat.
Proof.
  intros Hnc Hrun.
  destruct (serial_run events initial s Hnc serial_initial Hrun) as [Hs _].
  destruct (processing s); [lia|]. destruct Hs as [-> _]. simpl. lia.
Qed.

(** Without [clear], the callback is invoked in the order of arrival: the
    files pushed are exactly those invoked so far followed by those still
    pending. *)
Lemma fifo_without_clear events s :
  forallb (λ e, negb (is_clear e)) events = true →
  run events initial = Some s → pushed s = started s ++ queue s.
Proof.
  intros Hnc Hrun.
  by destruct (serial_run events initial s Hnc serial_initial Hrun).
Qed.

(** Every invocation takes the head of the pending sequence, [clear] or
    not. *)
Lemma processNext_takes_head s file rest :
  queue s = file :: rest →
  queue (processNext s) = rest
  ∧ inflight (processNext s) = inflight s ++ [file]
  ∧ started (processNext s) = started s ++ [file].
Proof. intros Hq. unfold processNext. by rewrite Hq. Qed.

(** A rejected callback is logged and the drain goes on exactly as after
    a resolved one. *)
Lemma rejection_is_logged_and_drain_continues file reason s s' :
  settle file (Rejected reason) s = Some s' →
  ∃ s'', settle file Resolved s = Some s''
    ∧ queue s' = queue s'' ∧ processing s' = processing s''
    ∧ inflight s' = inflight s'' ∧ started s' = started s''
    ∧ console s' = console s ++ ["Failed to process " +:+ path file +:+ ": "
                                 +:+ reason].
Proof.
  unfold settle. destruct (settled file (inflight s)) as [rest|]; simpl; [|done].
  intros [= <-]. eexists. split; [done|].
  unfold processNext. simpl. by destruct (queue s).
Qed.

Lemma settle_oldest file infl o s :
  inflight s = file :: infl →
  ∃ s', settle file o s = Some s'
    ∧ started s' ++ queue s' = started s ++ queue s
    ∧ length (queue s') + length (inflight s')
      = length (queue s) + length infl
    ∧ (queue s' ≠ [] → inflight s' ≠ []).
Proof.
  intros Hi. unfold settle. rewrite Hi, settled_head. simpl.
  eexists. split; [done|]. unfold processNext. simpl.
  destruct (queue s) as [|f q]; simpl.
  - by rewrite app_nil_r.
  - rewrite <-app_assoc, length_app. simpl.
    split; [done|]. split; [lia|]. intros _. by destruct infl.
Qed.

(** Settling callbacks until none is left invokes the callback on every
    pending file, in order. *)
Lemma drain_invokes_pending outcomes s :
  length outcomes = length (queue s) + length (inflight s) →
  (queue s ≠ [] → inflight s ≠ []) →
  ∃ s', drain outcomes s = Some s'
    ∧ started s' = started s ++ queue s
    ∧ queue s' = [] ∧ inflight s' = [].
Proof.
  revert s. induction outcomes as [|o outcomes IH]; intros s Hlen Hne.
  - simpl in *. exists s.
    destruct (queue s), (inflight s); simpl in *; try lia.
    by rewrite app_nil_r.
  - simpl. destruct (inflight s) as [|file infl] eqn:Ei.
    { destruct (queue s); [simpl in Hlen; lia|]. by destruct Hne. }
    destruct (settle_oldest file infl o s Ei) as (s1 & -> & Hst & Hl & Hne1).
    simpl. destruct (IH s1) as (s' & Hd & Hst' & Hq & Hi'); [|done|].
    + simpl in Hlen. lia.
    + exists s'. by rewrite Hst', Hst.
Qed.

End QueueOrder.

Section QueueClaims.

Implicit Types (s : State) (file : TFile) (o : Outcome).

Lemma no_entry_no_match (q : list TFile) (p : string) :
  p ∉ path <$> q → filter (λ f, path f = p) q = [].
Proof.
  induction q as [|f q IH]; [done|].
  rewrite fmap_cons, not_elem_of_cons. intros [Hne Hnin].
  rewrite filter_cons_False by done. by apply IH.
Qed.

Lemma one_entry_one_match (q : list TFile) (p : string) :
  NoDup (path <$> q) → p ∈ path <$> q →
  length (filter (λ f, path f = p) q) = 1.
Proof.
  induction q as [|f q IH]; [by intros _ ?%elem_of_nil|].
  rewrite fmap_cons, NoDup_cons, elem_of_cons. intros [Hnin Hnd] [->|Hin].
  - rewrite filter_cons_True by done. simpl.
    by rewrite no_entry_no_match.
  - rewrite filter_cons_False; [by apply IH|].
    intros Heq. apply Hnin. by rewrite Heq.
Qed.

Lemma add_keeps_pending_means_not_started file s :
  coherent s → path file ∈ path <$> queue (add file s) →
  started (add file s) = started s ∧ inflight (add file s) = inflight s.
Proof.
  intros (Hnd & Hq & Hp) Hin.
  destruct (decide (path file ∈ path <$> queue s)) as [Hin'|Hnin].
  - by rewrite add_pending.
  - rewrite add_absent in * by done. simpl in *.
    destruct (processing s) eqn:E; [done|].
    destruct (queue s) as [|f q]; [|by discriminate Hq].
    simpl in Hin. by apply elem_of_nil in Hin.
Qed.

(** C1, at the input where it fails: after [add a], a [clear] while the
    callback on [a] is still running and then [add b], the callbacks on
    [a] and on [b] are in flight together. [clear] resets [processing]
    although a callback is still in flight, so the next [add] starts a
    second drain. *)
Theorem clear_then_add_overlaps (a b : TFile) :
  ∃ s, run [Add a; Clear; Add b] initial = Some s
    ∧ inflight s = [a; b]
    ∧ started s = [a; b]
    ∧ length (inflight s) = 2.
Proof. eexists. split; [reflexivity|]. by repeat split. Qed.

(** C7: in every state the queue can reach, no two pending entries have
    the same path; [add] changes nothing when the path is already pending
    and appends the file otherwise; and when a path is enqueued a second
    time while its first entry is still pending, draining the queue
    invokes the callback on that path exactly once. *)
Theorem pending_paths_are_unique events s :
  run events initial = Some s →
  NoDup (path <$> queue s)
  ∧ (∀ file, path file ∈ path <$> queue s → add file s = s)
  ∧ (∀ file, path file ∉ path <$> queue s →
       pushed (add file s) = pushed s ++ [file])
  ∧ (∀ file file' outcomes,
       path file' = path file →
       path file ∈ path <$> queue (add file s) →
       length outcomes
         = length (queue (add file s)) + length (inflight (add file s)) →
       add file' (add file s) = add file s
       ∧ ∃ s', drain outcomes (add file' (add file s)) = Some s'
           ∧ queue s' = [] ∧ inflight s' = []
           ∧ invocations (path file) s' = invocations (path file) s + 1).
Proof.
  intros Hrun. pose proof (reachable_coherent _ _ Hrun) as Hc.
  split; [apply Hc|]. split; [intros file; apply add_pending|]. split.
  - intros file Hnin. rewrite add_absent by done. simpl.
    by destruct (processing s), (queue s).
  - intros file file' outcomes Hpath Hin Hlen.
    assert (add file' (add file s) = add file s) as Hsame.
    { apply add_pending. by rewrite Hpath. }
    split; [done|]. rewrite Hsame.
    pose proof (coherent_add file s Hc) as (Hnd1 & Hq1 & Hp1).
    destruct (drain_invokes_pending outcomes (add file s) Hlen)
      as (s' & Hd & Hst & Hq & Hi); [by intros ?%Hq1%Hp1|].
    exists s'. split; [done|]. split; [done|]. split; [done|].
    unfold invocations. rewrite Hst, filter_app, length_app.
    rewrite (one_entry_one_match _ _ Hnd1 Hin).
    by destruct (add_keeps_pending_means_not_started file s Hc Hin) as [-> _].
Qed.

(** C10: [processNext] removes a file from the pending sequence before
    it invokes the callback on it, so while that callback is in flight the
    path is not pending and [add] appends it again: the callback is then
    invoked a second time once the first invocation has settled. *)
Theorem inflight_file_can_be_enqueued_again events s file file' o :
  run events initial = Some s →
  processing s = false →
  path file' = path file →
  let s1 := add file s in
  let s2 := add file' s1 in
  queue s1 = [] ∧ inflight s1 = inflight s ++ [file]
  ∧ started s1 = started s ++ [file]
  ∧ queue s2 = [file'] ∧ inflight s2 = inflight s1 ∧ started s2 = started s1
  ∧ ∃ s3, settle file o s2 = Some s3
      ∧ started s3 = started s ++ [file; file']
      ∧ file' ∈ inflight s3
      ∧ invocations (path file) s3 = invocations (path file) s + 2.
Proof.
  intros Hrun Hidle Hpath s1 s2.
  pose proof (reachable_coherent _ _ Hrun) as (Hnd & Hq & Hp).
  assert (queue s = []) as Hempty.
  { destruct (queue s); [done|]. rewrite Hq in Hidle; done. }
  assert (s1 = {| queue := []; processing := true;
                  inflight := inflight s ++ [file];
                  started := started s ++ [file];
                  pushed := pushed s ++ [file]; console := console s |})
    as Hs1.
  { unfold s1. rewrite add_absent; simpl.
    - rewrite Hidle. unfold processNext. simpl. by rewrite Hempty.
    - rewrite Hempty. simpl. apply not_elem_of_nil. }
  assert (s2 = {| queue := [file']; processing := true;
                  inflight := inflight s ++ [file];
                  started := started s ++ [file];
                  pushed := (pushed s ++ [file]) ++ [file'];
                  console := console s |})
    as Hs2.
  { unfold s2. rewrite Hs1. rewrite add_absent; simpl; [done|].
    apply not_elem_of_nil. }
  rewrite Hs2, Hs1. simpl. repeat (split; [done|]).
  destruct (settled_elem file (inflight s ++ [file])) as [rest Hrest].
  { apply elem_of_app. right. by apply list_elem_of_singleton. }
  unfold settle. simpl. rewrite Hrest. simpl.
  eexists. split; [done|]. unfold processNext, invocations. simpl.
  split; [by rewrite <-app_assoc|]. split.
  - apply elem_of_app. right. by apply list_elem_of_singleton.
  - rewrite !filter_app, !length_app.
    rewrite !filter_cons_True by done. simpl. lia.
Qed.

End QueueClaims.

(** * Properties of the change detector and the metadata store *)

Section ChangeDetector.
Context `{!JsonRuntime}.

Implicit Types (settings : HandwritingOCRSettings) (vault : Vault)
  (file : TFile).

Lemma append_String (c : ascii) (s t : string) :
  String c s +:+ t = String c (s +:+ t).
Proof. reflexivity. Qed.

Lemma startsWith_spec (s p : string) :
  startsWith s p = true ↔ ∃ rest, s = p +:+ rest.
Proof.
  unfold startsWith. revert s.
  induction p as [|c p IH]; intros [|d s]; simpl.
  - split; [by exists ""|done].
  - split; [by exists (String d s)|done].
  - split; [done|]. by intros [rest ?].
  - destruct (Ascii.ascii_dec c d) as [->|Hne].
    + rewrite IH. split; intros [rest Hr]; exists rest;
        rewrite append_String in *; congruence.
    + split; [done|]. intros [rest Hr]. rewrite append_String in Hr.
      congruence.
Qed.

Lemma strict_eq_string_spec (value : option json) (s : string) :
  strict_eq_string value s = true ↔ value = Some (JStr s).
Proof.
  unfold strict_eq_string.
  destruct value as [[]|]; try (split; [done|congruence]).
  rewrite bool_decide_eq_true. split; congruence.
Qed.

Lemma isProcessed_returns vault file : ∃ b, isProcessed vault file = Normal b.
Proof.
  unfold isProcessed, getAbstractFileByPath, vault_read.
  destruct (vault !! getMetadataFilePath file) as [[|content]|]; eauto.
  simpl. destruct (JSON_parse content) as [metadata|]; simpl; eauto.
  destruct (get_prop metadata "fileHash") as [h|]; simpl; eauto.
  destruct (strict_eq_string h (getFileHash file)); simpl; eauto.
  destruct (get_prop metadata "status"); simpl; eauto.
Qed.

Lemma isProcessed_true vault file :
  isProcessed vault file = Normal true ↔ hasSuccessRecord vault file.
Proof.
  unfold isProcessed, hasSuccessRecord, getAbstractFileByPath, vault_read.
  destruct (vault !! getMetadataFilePath file) as [[|content]|];
    [split; [done|by intros (? & ? & ? & _)]| |split; [done|by intros (? & ? & ? & _)]].
  simpl. split.
  - destruct (JSON_parse content) as [metadata|] eqn:Ep; simpl; [|done].
    destruct (get_prop metadata "fileHash") as [h|] eqn:Eh; simpl; [|done].
    destruct (strict_eq_string h (getFileHash file)) eqn:E; simpl; [|done].
    destruct (get_prop metadata "status") as [st|] eqn:Est; simpl; [|done].
    intros [= Hst]. apply strict_eq_string_spec in E, Hst. subst.
    by exists content, metadata.
  - intros (c & metadata & [= <-] & -> & Hh & Hst). simpl.
    rewrite Hh. simpl.
    rewrite (proj2 (strict_eq_string_spec _ _) eq_refl). simpl.
    rewrite Hst. simpl.
    by rewrite (proj2 (strict_eq_string_spec _ _) eq_refl).
Qed.

Lemma isProcessed_false vault file :
  isProcessed vault file = Normal false ↔ ¬ hasSuccessRecord vault file.
Proof.
  rewrite <-isProcessed_true.
  destruct (isProcessed_returns vault file) as [[] ->]; split; congruence.
Qed.

Lemma shouldProcess_eligible settings vault file :
  shouldProcess settings vault file =
    if eligible settings file
    then processed ← isProcessed vault file; mret (negb processed)
    else Normal false.
Proof.
  unfold shouldProcess, eligible.
  destruct (enableAutoProcessing settings), (truthy (watchFolder settings)),
    (isInWatchFolder settings file), (isSupportedFile file),
    (validateFileSize file); done.
Qed.

Lemma eligible_spec settings file :
  eligible settings file = true ↔
    (enableAutoProcessing settings = true ∧ watchFolder settings ≠ "")
    ∧ residesUnder (strip_slashes (watchFolder settings)) file
    ∧ toLowerCase (extension file) ∈ supportedExtensions
    ∧ (size (stat file) ≤ 20 * 1024 * 1024)%N.
Proof.
  unfold eligible, isInWatchFolder, isSupportedFile, validateFileSize,
    residesUnder, truthy.
  rewrite !andb_true_iff, orb_true_iff, andb_true_iff, negb_true_iff,
    bool_decide_eq_false, !bool_decide_eq_true, !startsWith_spec,
    N.leb_le.
  unfold maxSize. tauto.
Qed.


End ChangeDetector.

Section MetadataStore.
Context `{!JsonRuntime}.

Implicit Types (settings : HandwritingOCRSettings) (vault : Vault)
  (file : TFile).

Lemma metadata_path_modified file st :
  getMetadataFilePath (modified file st) = getMetadataFilePath file.
Proof. reflexivity. Qed.

(** What [markAsProcessed] leaves in the vault when nothing was logged. *)
Lemma markAsProcessed_written vault file st message now vault' :
  markAsProcessed vault file st message now = (vault', []) →
  vault' !! getMetadataFilePath file =
    Some (FileNode (JSON_stringify (metadata_json
      {| processedAt := now; fileHash := getFileHash file; status := st;
         errorMessage := message |}))).
Proof.
  unfold markAsProcessed, getAbstractFileByPath, vault_modify, vault_create.
  destruct (vault !! getMetadataFilePath file) as [[|content]|] eqn:E;
    rewrite ?E; intros [= <-]; apply lookup_insert_eq.
Qed.

(** [markAsProcessed] touches no other path than the sidecar's. *)
Lemma markAsProcessed_elsewhere vault file st message now p :
  p ≠ getMetadataFilePath file →
  (markAsProcessed vault file st message now).1 !! p = vault !! p.
Proof.
  intros Hne.
  unfold markAsProcessed, getAbstractFileByPath, vault_modify, vault_create.
  destruct (vault !! getMetadataFilePath file) as [[|content]|] eqn:E;
    rewrite ?E; simpl; try done; by apply lookup_insert_ne.
Qed.

Lemma isProcessed_after_success vault file content now :
  vault !! getMetadataFilePath file = Some (FileNode content) →
  JSON_parse content = Normal (metadata_json
    {| processedAt := now; fileHash := getFileHash file; status := success;
       errorMessage := None |}) →
  ∀ st, isProcessed vault (modified file st)
        = Normal (bool_decide (getFileHash file = getFileHash (modified file st))).
Proof.
  intros Hv Hp st. unfold isProcessed, getAbstractFileByPath, vault_read.
  rewrite metadata_path_modified, Hv. simpl. rewrite Hp. simpl.
  unfold strict_eq_string at 1. case_bool_decide; simpl; [|done].
  unfold strict_eq_string. by rewrite bool_decide_eq_true_2.
Qed.

(** C4: once a success record has been written for [file], a file at the
    same place that is still eligible is skipped as long as its
    fingerprint is the recorded one, and is processed again as soon as its
    fingerprint differs. *)
Theorem success_record_skips_until_changed settings vault file now vault' :
  markAsProcessed vault file success None now = (vault', []) →
  JSON_parse (JSON_stringify (metadata_json
      {| processedAt := now; fileHash := getFileHash file; status := success;
         errorMessage := None |}))
    = Normal (metadata_json
      {| processedAt := now; fileHash := getFileHash file; status := success;
         errorMessage := None |}) →
  shouldProcess settings vault' file = Normal false
  ∧ ∀ st, eligible settings (modified file st) = true →
      (getFileHash (modified file st) = getFileHash file →
         shouldProcess settings vault' (modified file st) = Normal false)
      ∧ (getFileHash (modified file st) ≠ getFileHash file →
           shouldProcess settings vault' (modified file st) = Normal true).
Proof.
  intros Hw%markAsProcessed_written Hrt.
  pose proof (isProcessed_after_success vault' file _ now Hw Hrt) as Hp.
  split.
  - rewrite shouldProcess_eligible. destruct (eligible settings file); [|done].
    specialize (Hp (stat file)). destruct file as [? ? ? ? []]; simpl in *.
    unfold modified in Hp. simpl in Hp. rewrite Hp. simpl.
    by rewrite bool_decide_eq_true_2.
  - intros st Hel. rewrite shouldProcess_eligible, Hel, Hp. simpl.
    split; intros Hh.
    + by rewrite bool_decide_eq_true_2.
    + by rewrite bool_decide_eq_false_2.
Qed.

(** C5: a sidecar whose record has status [error] never makes
    [isProcessed] answer [true], whatever its [fileHash]: [shouldProcess]
    is then decided by the other four checks alone. *)
Theorem error_record_never_blocks settings vault file content metadata :
  vault !! getMetadataFilePath file = Some (FileNode content) →
  JSON_parse content = Normal metadata →
  get_prop metadata "status" = Normal (Some (JStr "error")) →
  isProcessed vault file = Normal false
  ∧ shouldProcess settings vault file = Normal (eligible settings file).
Proof.
  intros Hv Hp Hst.
  assert (isProcessed vault file = Normal false) as Hfalse.
  { apply isProcessed_false. intros (c & m & Hc & Hm & _ & Hs).
    rewrite Hv in Hc. injection Hc as <-. rewrite Hp in Hm.
    injection Hm as <-. rewrite Hst in Hs. discriminate. }
  split; [done|]. rewrite shouldProcess_eligible, Hfalse.
  by destruct (eligible settings file).
Qed.

(** C8: [isProcessed] never throws; when nothing readable is at the
    sidecar's path, or its text does not parse, the answer is [false], the
    same as if the sidecar did not exist. *)
Theorem unreadable_record_is_absent vault file :
  (∃ b, isProcessed vault file = Normal b)
  ∧ ((∀ content, vault !! getMetadataFilePath file ≠ Some (FileNode content)) →
       isProcessed vault file = Normal false)
  ∧ (∀ content e,
       vault !! getMetadataFilePath file = Some (FileNode content) →
       JSON_parse content = Throw e →
       isProcessed vault file = Normal false
       ∧ isProcessed vault file
         = isProcessed (delete (getMetadataFilePath file) vault) file
       ∧ ∀ settings,
           shouldProcess settings vault file
           = shouldProcess settings (delete (getMetadataFilePath file) vault) file).
Proof.
  split; [apply isProcessed_returns|]. split.
  - intros Hnone. unfold isProcessed, getAbstractFileByPath.
    destruct (vault !! getMetadataFilePath file) as [[|content]|] eqn:E;
      try done.
    by destruct (Hnone content).
  - intros content e Hv Hp.
    assert (isProcessed vault file = Normal false) as Hfalse.
    { unfold isProcessed, getAbstractFileByPath, vault_read.
      rewrite Hv. simpl. by rewrite Hp. }
    assert (isProcessed (delete (getMetadataFilePath file) vault) file
            = Normal false) as Hgone.
    { unfold isProcessed, getAbstractFileByPath.
      by rewrite lookup_delete_eq. }
    split; [done|]. split; [congruence|].
    intros settings. by rewrite !shouldProcess_eligible, Hfalse, Hgone.
Qed.

End MetadataStore.

Section Sidecar.
Context `{!JsonRuntime}.

Implicit Types (settings : HandwritingOCRSettings) (vault : Vault)
  (file : TFile).

Lemma after_last_dot_append (prefix ext : string) :
  after_last_dot ext = None →
  after_last_dot (prefix +:+ String "." ext) = Some ext.
Proof.
  intros Hext. induction prefix as [|c prefix IH].
  - change ("" +:+ String "." ext) with (String "." ext). simpl.
    by rewrite Hext.
  - rewrite append_String. simpl. by rewrite IH.
Qed.

Lemma append_assoc (a b c : string) : (a +:+ b) +:+ c = a +:+ (b +:+ c).
Proof.
  induction a as [|x a IH]; [done|]. rewrite !append_String. by rewrite IH.
Qed.

Lemma extname_metadataFileName (fileName : string) :
  extname (metadataFileName fileName) = "ocr-processed".
Proof.
  unfold extname, metadataFileName.
  change ".ocr-processed" with (String "." "ocr-processed").
  rewrite <-append_assoc. by rewrite after_last_dot_append.
Qed.

(** C9: the sidecar is written at [.<filename>.ocr-processed] next to
    the file and nowhere else; the extension of such a name is
    [ocr-processed], which is not a supported extension, so
    [shouldProcess] answers [false] for the sidecar file. *)
Theorem sidecar_is_never_processed settings vault file sidecar :
  name sidecar = metadataFileName (name file) →
  extension sidecar = extname (name sidecar) →
  (∃ dir, getMetadataFilePath file = dir +:+ metadataFileName (name file))
  ∧ (∀ st message now p, p ≠ getMetadataFilePath file →
       (markAsProcessed vault file st message now).1 !! p = vault !! p)
  ∧ (toLowerCase (extension sidecar) ∉ supportedExtensions)
  ∧ isSupportedFile sidecar = false
  ∧ shouldProcess settings vault sidecar = Normal false.
Proof.
  intros Hname Hext.
  rewrite Hname, extname_metadataFileName in Hext.
  assert (isSupportedFile sidecar = false) as Hns.
  { unfold isSupportedFile. by rewrite Hext. }
  split; [|split; [|split; [|split]]].
  - unfold getMetadataFilePath. destruct (truthy _).
    + eexists (_ +:+ "/"). by rewrite append_assoc.
    + by exists "".
  - intros. by apply markAsProcessed_elsewhere.
  - unfold isSupportedFile in Hns. by apply bool_decide_eq_false in Hns.
  - done.
  - rewrite shouldProcess_eligible. unfold eligible. rewrite Hns.
    by rewrite !andb_false_r.
Qed.

End Sidecar.

(** * Properties of the remote client *)

Section RemoteClient.
Import Api.

Implicit Types (remote : Remote) (trace : list Action).

(** C6: [uploadDocument] maps the status of the response to its
    outcome: 401, 403, 413 and 415 each throw their own error, every other
    status outside 2xx throws the generic upload failure, and on 201 (the
    only status it accepts) the identifier of the response is returned. *)
Theorem uploadDocument_status_mapping remote response trace :
  upload_reply remote = Normal response →
  let result := (uploadDocument remote trace).2 in
  (resp_status response = 401%N → result = Throw "Invalid API key")
  ∧ (resp_status response = 403%N → result = Throw "Insufficient credits")
  ∧ (resp_status response = 413%N → result = Throw "File too large (max 20MB)")
  ∧ (resp_status response = 415%N → result = Throw "Unsupported file type")
  ∧ (resp_status response ∉ [401; 403; 413; 415]%N →
     ¬ (200 ≤ resp_status response < 300)%N →
     result = Throw ("Upload failed: " +:+ pretty (resp_status response)))
  ∧ (resp_status response = 201%N →
     result = Normal (upload_id (resp_json response)))
  ∧ (∀ documentId, result = Normal documentId →
     resp_status response = 201%N).
Proof.
  intros Hreply result. subst result.
  unfold uploadDocument, perform, mbind, Async_bind. rewrite Hreply.
  repeat split.
  - by intros ->.
  - by intros ->.
  - by intros ->.
  - by intros ->.
  - intros Hnot Hrange. do 4 (case_decide; [set_solver|]).
    case_decide; [done|]. lia.
  - by intros ->.
  - intros documentId. do 4 (case_decide; [done|]).
    case_decide; [done|]. intros _. lia.
Qed.

Lemma rounds_snoc (k : nat) (documentId : string) :
  rounds k documentId ++ rounds 1 documentId = rounds (S k) documentId.
Proof. induction k as [|k IH]; [done|]. simpl in *. by rewrite IH. Qed.

Lemma pollLoop_step remote documentId remaining attempts trace response :
  status_reply remote attempts = Normal response →
  resp_status response = 200%N →
  pollLoop remote documentId (S remaining) attempts trace =
    let trace' := trace ++ rounds 1 documentId in
    if decide (doc_status (resp_json response) = "processed")
    then getResult remote documentId trace'
    else if decide (doc_status (resp_json response) = "failed")
    then (trace', Throw (failureMessage (resp_json response)))
    else pollLoop remote documentId remaining (S attempts) trace'.
Proof.
  intros Hreply Hok. simpl.
  unfold mbind, Async_bind, sleep, checkStatus, perform, mbind, Async_bind.
  rewrite Hreply, Hok. simpl. rewrite <-app_assoc. simpl.
  repeat case_decide; done.
Qed.

Lemma pollLoop_processing remote documentId j :
  ∀ remaining attempts trace,
    (∀ n, attempts ≤ n < attempts + j → reports remote n "processing")%nat →
    pollLoop remote documentId (j + remaining) attempts trace
    = pollLoop remote documentId remaining (attempts + j)
        (trace ++ rounds j documentId).
Proof.
  induction j as [|j IH]; intros remaining attempts trace Hp.
  - simpl. by rewrite Nat.add_0_r, app_nil_r.
  - destruct (Hp attempts) as (response & Hreply & Hok & Hst); [lia|].
    change (S j + remaining) with (S (j + remaining)).
    rewrite (pollLoop_step _ _ _ _ _ response) by done. simpl.
    rewrite Hst. rewrite !decide_False by done.
    rewrite IH by (intros n Hn; apply Hp; lia).
    rewrite <-app_assoc. simpl. f_equal. lia.
Qed.

Lemma processDocument_uploaded remote response :
  upload_reply remote = Normal response →
  resp_status response = 201%N →
  processDocument remote []
  = pollLoop remote (upload_id (resp_json response)) maxAttempts 0 [PostDocument].
Proof.
  intros Hreply Hok.
  unfold processDocument, uploadDocument, perform, mbind, Async_bind.
  rewrite Hreply. simpl. rewrite Hok. by repeat case_decide.
Qed.

Lemma polls_app trace trace' : polls (trace ++ trace') = polls trace + polls trace'.
Proof. unfold polls. by rewrite List.filter_app, length_app. Qed.

Lemma getResult_polls remote documentId trace :
  polls (getResult remote documentId trace).1 = polls trace.
Proof.
  unfold getResult, perform, mbind, Async_bind.
  assert (polls (trace ++ [GetResult documentId]) = polls trace) as Hp.
  { rewrite polls_app. unfold polls. simpl. lia. }
  destruct (result_reply remote) as [r|]; [|done].
  repeat case_decide; try done.
  destruct (result_error (resp_json r)) as [e|]; [|done].
  by destruct (truthy e).
Qed.

(** Whatever the service answers, the loop polls at most [remaining] more
    times. *)
Lemma pollLoop_polls_bound remote documentId remaining :
  ∀ attempts trace,
    (polls (pollLoop remote documentId remaining attempts trace).1
     ≤ polls trace + remaining)%nat.
Proof.
  induction remaining as [|remaining IH]; intros attempts trace.
  - simpl. lia.
  - assert (polls ((trace ++ [Sleep 2000]) ++ [GetStatus documentId])
            = S (polls trace)) as Hp.
    { rewrite !polls_app. unfold polls. simpl. lia. }
    simpl. unfold mbind, Async_bind, sleep, checkStatus, perform, mbind,
      Async_bind. simpl.
    destruct (status_reply remote attempts) as [r|]; simpl; [|lia].
    repeat case_decide; simpl; try lia.
    destruct (decide (doc_status (resp_json r) = "processed")).
    { rewrite getResult_polls. lia. }
    destruct (decide (doc_status (resp_json r) = "failed")); simpl; [lia|].
    specialize (IH (S attempts)
      ((trace ++ [Sleep 2000]) ++ [GetStatus documentId])). lia.
Qed.

Lemma uploadDocument_trace remote trace :
  (uploadDocument remote trace).1 = trace ++ [PostDocument].
Proof.
  unfold uploadDocument, perform, mbind, Async_bind.
  destruct (upload_reply remote) as [r|]; [|done]. by repeat case_decide.
Qed.

(** [processDocument] never polls more than 60 times. *)
Lemma processDocument_polls_bound remote :
  (polls (processDocument remote []).1 ≤ 60)%nat.
Proof.
  unfold processDocument. unfold mbind at 1. unfold Async_bind at 1.
  pose proof (uploadDocument_trace remote []) as Ht.
  destruct (uploadDocument remote []) as [trace [documentId|e]];
    simpl in Ht; subst trace.
  - apply (pollLoop_polls_bound remote documentId maxAttempts 0 [PostDocument]).
  - unfold polls. simpl. lia.
Qed.


End RemoteClient.

(** * The fingerprint *)

Section Fingerprint.

Lemma pretty_N_go_no_dash (x : N) (s : string) :
  includes s "-" = false → includes (pretty_N_go x s) "-" = false.
Proof.
  revert s. induction (N.lt_wf_0 x) as [x _ IH]; intros s Hs.
  assert (x = 0 ∨ 0 < x)%N as [->|Hpos] by lia.
  - by rewrite pretty_N_go_0.
  - rewrite pretty_N_go_step by done. apply IH; [by apply N.div_lt|].
    simpl. rewrite Hs, orb_false_r. apply bool_decide_eq_false.
    unfold pretty_N_char. by repeat case_match.
Qed.

Lemma pretty_N_no_dash (x : N) : includes (pretty x) "-" = false.
Proof.
  unfold pretty, pretty_N. case_decide; [done|].
  by apply pretty_N_go_no_dash.
Qed.

Lemma split_at_first_dash (a1 a2 b1 b2 : string) :
  includes a1 "-" = false → includes a2 "-" = false →
  a1 +:+ "-" +:+ b1 = a2 +:+ "-" +:+ b2 → a1 = a2 ∧ b1 = b2.
Proof.
  revert a2. induction a1 as [|c a1 IH]; intros [|d a2] H1 H2 Heq.
  - by injection Heq.
  - injection Heq as <- _. by simpl in H2.
  - injection Heq as -> _. by simpl in H1.
  - injection Heq as -> Heq. simpl in H1, H2.
    apply orb_false_elim in H1 as [_ H1]. apply orb_false_elim in H2 as [_ H2].
    destruct (IH a2 H1 H2 Heq) as [-> ->]. done.
Qed.

(** The fingerprint of a file changes exactly when its modification time
    or its size does. *)
Lemma getFileHash_inj (f g : TFile) :
  getFileHash f = getFileHash g ↔ stat f = stat g.
Proof.
  split; [|unfold getFileHash; by intros ->].
  unfold getFileHash. intros Heq.
  apply split_at_first_dash in Heq as [Hm Hs]; [|apply pretty_N_no_dash..].
  apply (inj pretty) in Hm, Hs.
  destruct (stat f), (stat g). simpl in *. by subst.
Qed.

End Fingerprint.

(** * The model on concrete inputs *)

Section Computations.
Import Examples Api.

Example getFileHash_scanA : getFileHash scanA = "1700000000000-1024".
Proof. vm_compute. reflexivity. Qed.

Example getMetadataFilePath_scanA :
  getMetadataFilePath scanA = "Inbox/.a.png.ocr-processed".
Proof. reflexivity. Qed.

Example getMetadataFilePath_at_root :
  getMetadataFilePath
    {| path := "a.png"; name := "a.png"; extension := "png"; parent := None;
       stat := {| mtime := 1; size := 1 |} |}
  = ".a.png.ocr-processed".
Proof. reflexivity. Qed.

Example strip_slashes_watchFolder : strip_slashes "//Inbox/scans///" = "Inbox/scans".
Proof. reflexivity. Qed.

Example isSupportedFile_upper_case : isSupportedFile scanA = true.
Proof. reflexivity. Qed.

Example extname_sidecarA : extname (name sidecarA) = extension sidecarA.
Proof. reflexivity. Qed.

Example validateFileSize_limit :
  validateFileSize (modified scanA {| mtime := 1; size := 20971520 |}) = true
  ∧ validateFileSize (modified scanA {| mtime := 1; size := 20971521 |}) = false.
Proof. split; reflexivity. Qed.

Example shouldProcess_fresh_file :
  @shouldProcess tableRuntime settings ∅ scanA = Normal true.
Proof. vm_compute. reflexivity. Qed.

Example shouldProcess_null_sidecar :
  @shouldProcess tableRuntime settings (withRecord "null") scanA = Normal true.
Proof. vm_compute. reflexivity. Qed.

Example upload_200_is_refused :
  (uploadDocument (refused 200) []).2 = Throw "Upload failed: 200".
Proof. vm_compute. reflexivity. Qed.

Example three_files_in_order :
  ∃ s, run [Add scanA; Add scanB; Add sidecarA; Settle scanA Resolved;
            Settle scanB (Rejected "Insufficient credits");
            Settle sidecarA Resolved] initial = Some s
    ∧ started s = [scanA; scanB; sidecarA] ∧ inflight s = []
    ∧ processing s = false
    ∧ console s = ["Failed to process Inbox/b.pdf: Insufficient credits"].
Proof. eexists. split; [vm_compute; reflexivity|]. by repeat split. Qed.

End Computations.

(** * The theorems at concrete inputs *)

Section Instances.
Import Examples Api.



Lemma success_record_skips_until_changed_witness :
  @markAsProcessed tableRuntime ∅ scanA success None 1700000001000
    = (withRecord successText, [])
  ∧ @shouldProcess tableRuntime settings (withRecord successText) scanA
    = Normal false
  ∧ @shouldProcess tableRuntime settings (withRecord successText)
      (modified scanA savedAgain) = Normal true.
Proof.
  assert (@markAsProcessed tableRuntime ∅ scanA success None 1700000001000
          = (withRecord successText, [])) as Hw by (vm_compute; reflexivity).
  split; [exact Hw|].
  destruct (@success_record_skips_until_changed tableRuntime settings ∅ scanA
              1700000001000 (withRecord successText) Hw)
    as [Hsame Hchanged]; [vm_compute; reflexivity|].
  split; [exact Hsame|].
  destruct (Hchanged savedAgain) as [_ Hdiff]; [vm_compute; reflexivity|].
  apply Hdiff. vm_compute. discriminate.
Defined.

Lemma error_record_never_blocks_witness :
  @isProcessed tableRuntime (withRecord errorText) scanA = Normal false
  ∧ @shouldProcess tableRuntime settings (withRecord errorText) scanA
    = Normal true.
Proof.
  apply (@error_record_never_blocks tableRuntime settings
           (withRecord errorText) scanA errorText (metadata_json errorRecord));
    vm_compute; reflexivity.
Defined.

Lemma uploadDocument_status_mapping_witness :
  (uploadDocument (refused 401) []).2 = Throw "Invalid API key"
  ∧ (uploadDocument (refused 403) []).2 = Throw "Insufficient credits"
  ∧ (uploadDocument (refused 413) []).2 = Throw "File too large (max 20MB)"
  ∧ (uploadDocument (refused 415) []).2 = Throw "Unsupported file type"
  ∧ (uploadDocument (refused 500) []).2 = Throw "Upload failed: 500"
  ∧ (uploadDocument (refused 201) []).2 = Normal "doc-1".
Proof.
  pose proof (λ code, uploadDocument_status_mapping (refused code) _ []
                        eq_refl) as H.
  split; [by apply (H 401%N)|]. split; [by apply (H 403%N)|].
  split; [by apply (H 413%N)|]. split; [by apply (H 415%N)|].
  split; [|by apply (H 201%N)].
  destruct (H 500%N) as (_ & _ & _ & _ & Hother & _).
  apply Hother; simpl; [|lia].
  intros Hin. repeat (apply elem_of_cons in Hin as [Hin|Hin]; [done|]).
  by apply elem_of_nil in Hin.
Defined.

Lemma pending_paths_are_unique_witness :
  run [Add scanB] initial = Some (add scanB initial)
  ∧ queue (add (modified scanA savedAgain) (add scanA (add scanB initial)))
    = [scanA]
  ∧ ∃ s', drain [Resolved; Rejected "Insufficient credits"]
            (add (modified scanA savedAgain) (add scanA (add scanB initial)))
          = Some s'
      ∧ invocations "Inbox/a.png" s' = 1.
Proof.
  split; [reflexivity|].
  destruct (pending_paths_are_unique [Add scanB] (add scanB initial) eq_refl)
    as (_ & _ & _ & Htwice).
  destruct (Htwice scanA (modified scanA savedAgain)
              [Resolved; Rejected "Insufficient credits"])
    as [Hsame (s' & Hd & _ & _ & Hinv)];
    [reflexivity|vm_compute; constructor|reflexivity|].
  split; [by rewrite Hsame|]. exists s'. split; [exact Hd|exact Hinv].
Defined.

Lemma unreadable_record_is_absent_witness :
  @isProcessed tableRuntime ∅ scanA = Normal false
  ∧ @isProcessed tableRuntime (withRecord "{not json") scanA = Normal false
  ∧ @shouldProcess tableRuntime settings (withRecord "{not json") scanA
    = @shouldProcess tableRuntime settings
        (delete (getMetadataFilePath scanA) (withRecord "{not json")) scanA.
Proof.
  split.
  - apply (proj1 (proj2 (@unreadable_record_is_absent tableRuntime ∅ scanA))).
    intros content. by rewrite lookup_empty.
  - destruct (proj2 (proj2 (@unreadable_record_is_absent tableRuntime
                (withRecord "{not json") scanA)) "{not json"
                "SyntaxError: Unexpected token")
      as (Hfalse & _ & Hsame); [vm_compute; reflexivity..|].
    split; [exact Hfalse|apply Hsame].
Defined.

Lemma sidecar_is_never_processed_witness :
  name sidecarA = metadataFileName (name scanA)
  ∧ extension sidecarA = extname (name sidecarA)
  ∧ @shouldProcess tableRuntime settings (withRecord successText) sidecarA
    = Normal false.
Proof.
  split; [reflexivity|]. split; [reflexivity|].
  apply (@sidecar_is_never_processed tableRuntime settings
           (withRecord successText) scanA sidecarA eq_refl eq_refl).
Defined.

Lemma inflight_file_can_be_enqueued_again_witness :
  ∃ s3, settle scanA Resolved
          (add (modified scanA savedAgain) (add scanA initial)) = Some s3
    ∧ started s3 = [scanA; modified scanA savedAgain]
    ∧ invocations "Inbox/a.png" s3 = 2.
Proof.
  destruct (inflight_file_can_be_enqueued_again [] initial scanA
              (modified scanA savedAgain) Resolved eq_refl eq_refl eq_refl)
    as (_ & _ & _ & _ & _ & _ & s3 & Hs & Hst & _ & Hinv).
  exists s3. split; [exact Hs|]. split; [exact Hst|exact Hinv].
Defined.

End Instances.

(** * Further properties of the processing queue *)

Section QueueMore.
Import Examples.

Implicit Types (s : State) (file : TFile) (o : Outcome).

Lemma drain_to_idle outcomes s :
  length outcomes = length (queue s) + length (inflight s) →
  (queue s ≠ [] → inflight s ≠ []) →
  (inflight s = [] → processing s = false) →
  ∃ s', drain outcomes s = Some s'
    ∧ started s' = started s ++ queue s
    ∧ queue s' = [] ∧ inflight s' = [] ∧ processing s' = false.
Proof.
  revert s. induction outcomes as [|o outcomes IH]; intros s Hlen Hne Hidle.
  - simpl in *. exists s.
    destruct (queue s), (inflight s) eqn:Ei; simpl in *; try lia.
    rewrite app_nil_r. repeat split; try done. by apply Hidle.
  - simpl. destruct (inflight s) as [|file infl] eqn:Ei.
    { destruct (queue s); [simpl in Hlen; lia|]. by destruct Hne. }
    unfold settle. rewrite Ei, settled_head. simpl.
    match goal with |- context [processNext ?t] => set (s0 := t) end.
    destruct (IH (processNext s0)) as (s' & Hd & Hst & Hq & Hi & Hp).
    + unfold processNext, s0. simpl. destruct (queue s); simpl in *;
        rewrite ?length_app; simpl; lia.
    + unfold processNext, s0. simpl. destruct (queue s); simpl; [done|].
      intros _. by destruct infl.
    + unfold processNext, s0. simpl. destruct (queue s); simpl; [done|].
      by destruct infl.
    + exists s'. split; [done|]. split; [|done].
      rewrite Hst. unfold processNext, s0. simpl.
      destruct (queue s); simpl; [done|]. by rewrite <-app_assoc.
Qed.

(** X1: as long as [clear] is not called, at most one callback is in
    flight in every state the queue reaches, and the files pushed are
    exactly the files invoked so far, in the same order, followed by the
    pending ones. *)
Theorem queue_is_serial_and_fifo_without_clear events s :
  forallb (λ e, negb (is_clear e)) events = true →
  run events initial = Some s →
  (length (inflight s) ≤ 1)%nat
  ∧ pushed s = started s ++ queue s
  ∧ (processing s = false → inflight s = [] ∧ getQueueLength s = 0).
Proof.
  intros Hnc Hrun.
  destruct (serial_run events initial s Hnc serial_initial Hrun) as [Hs Hp].
  split; [|split; [done|]].
  - destruct (processing s); [lia|]. destruct Hs as [-> _]. simpl. lia.
  - intros Hidle. rewrite Hidle in Hs. destruct Hs as [-> Hq].
    unfold getQueueLength. by rewrite Hq.
Qed.

Lemma queue_is_serial_and_fifo_without_clear_witness :
  ∃ s, run [Add scanA; Add scanB; Settle scanA Resolved] initial = Some s
    ∧ (length (inflight s) ≤ 1)%nat
    ∧ pushed s = started s ++ queue s.
Proof.
  eexists. split; [reflexivity|].
  destruct (queue_is_serial_and_fifo_without_clear
              [Add scanA; Add scanB; Settle scanA Resolved] _ eq_refl eq_refl)
    as (Hone & Hfifo & _).
  split; [exact Hone|exact Hfifo].
Defined.

(** X2: when a callback rejects, the failure is written to the console
    and the queue goes on: the head of the pending files is invoked next,
    or the queue becomes idle when nothing is pending. *)
Theorem rejected_callback_is_logged_and_next_starts s file reason :
  file ∈ inflight s →
  ∃ s', settle file (Rejected reason) s = Some s'
    ∧ console s' = console s ++ ["Failed to process " +:+ path file +:+ ": "
                                 +:+ reason]
    ∧ match queue s with
      | [] => processing s' = false ∧ started s' = started s
      | next :: rest =>
          processing s' = true ∧ started s' = started s ++ [next]
          ∧ queue s' = rest ∧ next ∈ inflight s'
      end.
Proof.
  intros [rest Hrest]%settled_elem. unfold settle. rewrite Hrest. simpl.
  eexists. split; [done|]. unfold processNext. simpl.
  destruct (queue s) as [|next q]; simpl; [done|].
  repeat split; try done. apply elem_of_app. right. by apply list_elem_of_singleton.
Qed.

Lemma rejected_callback_is_logged_and_next_starts_witness :
  ∃ s', settle scanA (Rejected "Insufficient credits")
          (add scanB (add scanA initial)) = Some s'
    ∧ console s' = ["Failed to process Inbox/a.png: Insufficient credits"]
    ∧ started s' = [scanA; scanB].
Proof.
  destruct (rejected_callback_is_logged_and_next_starts
              (add scanB (add scanA initial)) scanA "Insufficient credits")
    as (s' & Hs & Hc & _ & Hst & _); [vm_compute; constructor|].
  exists s'. split; [exact Hs|]. split; [exact Hc|exact Hst].
Defined.

(** X3: [clear] empties the pending files and cancels nothing: the
    callbacks in flight stay in flight, and once they have all settled no
    file that was pending at the time of the [clear] has been invoked. *)
Theorem clear_drops_pending_files s outcomes :
  length outcomes = length (inflight s) →
  getQueueLength (clear s) = 0
  ∧ inflight (clear s) = inflight s
  ∧ ∃ s', drain outcomes (clear s) = Some s'
      ∧ started s' = started s ∧ inflight s' = [] ∧ queue s' = []
      ∧ processing s' = false.
Proof.
  intros Hlen. split; [done|]. split; [done|].
  destruct (drain_to_idle outcomes (clear s)) as (s' & Hd & Hst & Hq & Hi & Hp);
    simpl; try done.
  exists s'. split; [done|]. simpl in Hst. rewrite app_nil_r in Hst. done.
Qed.

Lemma clear_drops_pending_files_witness :
  ∃ s', drain [Resolved] (clear (add scanB (add scanA initial))) = Some s'
    ∧ started s' = [scanA] ∧ inflight s' = [].
Proof.
  destruct (clear_drops_pending_files (add scanB (add scanA initial)) [Resolved]
              eq_refl) as (_ & _ & s' & Hd & Hst & Hi & _).
  exists s'. split; [exact Hd|]. split; [exact Hst|exact Hi].
Defined.

(** X4: in every state the queue reaches, an idle queue has no pending
    file and a pending file means a callback is in flight; a file added
    to an idle queue is never left pending, its callback is invoked at
    once. *)
Theorem idle_queue_has_nothing_pending events s :
  run events initial = Some s →
  (processing s = false → getQueueLength s = 0)
  ∧ (0 < getQueueLength s → inflight s ≠ [])%nat
  ∧ (∀ file, processing s = false →
       getQueueLength (add file s) = 0
       ∧ started (add file s) = started s ++ [file]
       ∧ processing (add file s) = true).
Proof.
  intros Hrun. destruct (reachable_coherent _ _ Hrun) as (Hnd & Hq & Hp).
  assert (processing s = false → queue s = []) as Hempty.
  { intros Hidle. destruct (queue s); [done|]. rewrite Hq in Hidle; done. }
  unfold getQueueLength. split; [|split].
  - intros Hidle. by rewrite Hempty.
  - intros Hpos. apply Hp, Hq. intros Hnil. rewrite Hnil in Hpos.
    simpl in Hpos. lia.
  - intros file Hidle. rewrite add_absent.
    + simpl. rewrite Hidle. unfold processNext. simpl.
      by rewrite (Hempty Hidle).
    + rewrite (Hempty Hidle). simpl. apply not_elem_of_nil.
Qed.

Lemma idle_queue_has_nothing_pending_witness :
  getQueueLength (add scanB (clear (add scanA initial))) = 0
  ∧ started (add scanB (clear (add scanA initial))) = [scanA; scanB].
Proof.
  destruct (idle_queue_has_nothing_pending [Add scanA; Clear]
              (clear (add scanA initial)) eq_refl) as (_ & _ & Hadd).
  destruct (Hadd scanB eq_refl) as (Hlen & Hst & _).
  split; [exact Hlen|exact Hst].
Defined.

(** X5: from every state the queue reaches, once the callbacks have
    settled as many times as there are files pending and in flight,
    whatever their outcomes, every pending file has been invoked, in the
    order of the queue, and the queue is idle and empty. *)
Theorem every_pending_file_is_invoked events s outcomes :
  run events initial = Some s →
  length outcomes = getQueueLength s + length (inflight s) →
  ∃ s', drain outcomes s = Some s'
    ∧ started s' = started s ++ queue s
    ∧ getQueueLength s' = 0 ∧ inflight s' = [] ∧ processing s' = false.
Proof.
  intros Hrun Hlen. destruct (reachable_coherent _ _ Hrun) as (Hnd & Hq & Hp).
  destruct (drain_to_idle outcomes s Hlen) as (s' & Hd & Hst & Hq' & Hi & Hp').
  - intros Hne. by apply Hp, Hq.
  - intros Hi. destruct (processing s) eqn:E; [|done]. by destruct (Hp eq_refl).
  - exists s'. unfold getQueueLength. by rewrite Hq'.
Qed.

Lemma every_pending_file_is_invoked_witness :
  ∃ s', drain [Rejected "Insufficient credits"; Resolved; Resolved]
          (add sidecarA (add scanB (add scanA initial))) = Some s'
    ∧ started s' = [scanA; scanB; sidecarA]
    ∧ processing s' = false.
Proof.
  destruct (every_pending_file_is_invoked
              [Add scanA; Add scanB; Add sidecarA]
              (add sidecarA (add scanB (add scanA initial)))
              [Rejected "Insufficient credits"; Resolved; Resolved]
              eq_refl eq_refl) as (s' & Hd & Hst & _ & _ & Hp).
  exists s'. split; [exact Hd|]. split; [exact Hst|exact Hp].
Defined.

End QueueMore.

(** * Further properties of the remote client *)

Section RemoteClientMore.
Import Api Examples.

Implicit Types (remote : Remote) (trace : list Action).

Lemma getResult_trace remote documentId trace :
  (getResult remote documentId trace).1 = trace ++ [GetResult documentId].
Proof.
  unfold getResult, perform, mbind, Async_bind.
  destruct (result_reply remote) as [r|]; [|done].
  repeat case_decide; try done.
  destruct (result_error (resp_json r)) as [e|]; [|done].
  by destruct (truthy e).
Qed.

Lemma rounds_app (j k : nat) (documentId : string) :
  rounds j documentId ++ rounds k documentId = rounds (j + k) documentId.
Proof. induction j as [|j IH]; [done|]. simpl. by rewrite IH. Qed.

Lemma pollLoop_trace_shape remote documentId remaining :
  ∀ attempts trace,
    ∃ k, (k ≤ remaining)%nat ∧ (0 < remaining → 0 < k)%nat
      ∧ ((pollLoop remote documentId remaining attempts trace).1
           = trace ++ rounds k documentId
         ∨ (pollLoop remote documentId remaining attempts trace).1
           = trace ++ rounds k documentId ++ [GetResult documentId]).
Proof.
  induction remaining as [|remaining IH]; intros attempts trace.
  - exists 0. simpl. rewrite app_nil_r. split; [lia|]. split; [lia|]. by left.
  - assert (∃ k, (k ≤ S remaining)%nat ∧ (0 < S remaining → 0 < k)%nat
        ∧ ((trace ++ [Sleep 2000]) ++ [GetStatus documentId]
             = trace ++ rounds k documentId
           ∨ (trace ++ [Sleep 2000]) ++ [GetStatus documentId]
             = trace ++ rounds k documentId ++ [GetResult documentId]))
      as Hone.
    { exists 1. split; [lia|]. split; [lia|]. left. simpl.
      by rewrite <-app_assoc. }
    simpl. unfold mbind, Async_bind, sleep, checkStatus, perform, mbind,
      Async_bind. simpl.
    destruct (status_reply remote attempts) as [r|]; simpl; [|apply Hone].
    case_decide; [apply Hone|]. case_decide; [apply Hone|].
    unfold mret, Async_ret. cbv beta iota.
    destruct (decide (doc_status (resp_json r) = "processed")); cbv beta iota.
    { exists 1. split; [lia|]. split; [lia|]. right.
      rewrite getResult_trace. simpl. by rewrite <-!app_assoc. }
    destruct (decide (doc_status (resp_json r) = "failed")); cbv beta iota;
      [apply Hone|].
    destruct (IH (S attempts) ((trace ++ [Sleep 2000]) ++ [GetStatus documentId]))
      as (k & Hk & _ & Hshape).
    exists (S k). split; [lia|]. split; [lia|].
    destruct Hshape as [-> | ->]; [left|right]; simpl;
      by rewrite <-!app_assoc.
Qed.

Lemma processDocument_unfold remote :
  processDocument remote []
  = match uploadDocument remote [] with
    | (trace, Normal documentId) =>
        pollLoop remote documentId maxAttempts 0 trace
    | (trace, Throw e) => (trace, Throw e)
    end.
Proof. reflexivity. Qed.


Lemma processDocument_upload_failed remote e :
  (uploadDocument remote []).2 = Throw e →
  processDocument remote [] = ([PostDocument], Throw e).
Proof.
  intros He. rewrite processDocument_unfold.
  pose proof (uploadDocument_trace remote []) as Ht.
  destruct (uploadDocument remote []) as [trace [documentId|e']];
    simpl in *; subst trace; [done|]. by injection He as ->.
Qed.

(** X7: when the upload fails, [processDocument] fails with the same
    error and sends no status request. *)
Theorem failed_upload_sends_no_status_request remote e :
  (uploadDocument remote []).2 = Throw e →
  processDocument remote [] = ([PostDocument], Throw e).
Proof. apply processDocument_upload_failed. Qed.

Lemma failed_upload_sends_no_status_request_witness :
  processDocument (refused 403) [] = ([PostDocument], Throw "Insufficient credits").
Proof.
  apply (failed_upload_sends_no_status_request (refused 403)). reflexivity.
Defined.

Lemma processDocument_after_polls remote response k :
  upload_reply remote = Normal response →
  resp_status response = 201%N →
  (k < 60)%nat →
  (∀ n, n < k → reports remote n "processing")%nat →
  processDocument remote []
  = pollLoop remote (upload_id (resp_json response)) (60 - k) k
      (PostDocument :: rounds k (upload_id (resp_json response))).
Proof.
  intros Hreply Hok Hk Hp.
  rewrite (processDocument_uploaded _ _ Hreply Hok).
  replace maxAttempts with (k + (60 - k))%nat by (unfold maxAttempts; lia).
  by rewrite pollLoop_processing by (intros n Hn; apply Hp; lia).
Qed.

Lemma processDocument_status_check_failed remote response k :
  upload_reply remote = Normal response →
  resp_status response = 201%N →
  (k < 60)%nat →
  (∀ n, n < k → reports remote n "processing")%nat →
  let documentId := upload_id (resp_json response) in
  (∀ reply, status_reply remote k = Normal reply →
     resp_status reply ≠ 200%N →
     processDocument remote []
     = (PostDocument :: rounds (S k) documentId,
        Throw (if decide (resp_status reply = 401%N) then "Invalid API key"
               else "Status check failed: " +:+ pretty (resp_status reply))))
  ∧ (∀ e, status_reply remote k = Throw e →
       processDocument remote []
       = (PostDocument :: rounds (S k) documentId, Throw e)).
Proof.
  intros Hreply Hok Hk Hp documentId.
  rewrite (processDocument_after_polls _ _ k Hreply Hok Hk Hp). fold documentId.
  replace (60 - k)%nat with (S (59 - k)) by lia.
  simpl. unfold mbind, Async_bind, sleep, checkStatus, perform, mbind,
    Async_bind. simpl.
  assert ((rounds k documentId ++ [Sleep 2000]) ++ [GetStatus documentId]
          = rounds (S k) documentId) as Htrace.
  { rewrite <-app_assoc. apply (rounds_snoc k documentId). }
  split.
  - intros reply -> Hne. simpl. rewrite Htrace.
    case_decide; [done|]. by case_decide.
  - intros e ->. simpl. by rewrite Htrace.
Qed.

(** X8: a status request that is answered with another HTTP status than
    200, or that fails on the network, ends [processDocument] at once with
    that failure: no further poll and no request for the result follow. *)
Theorem failed_status_check_aborts remote response k :
  upload_reply remote = Normal response →
  resp_status response = 201%N →
  (k < 60)%nat →
  (∀ n, n < k → reports remote n "processing")%nat →
  let documentId := upload_id (resp_json response) in
  (∀ reply, status_reply remote k = Normal reply →
     resp_status reply ≠ 200%N →
     processDocument remote []
     = (PostDocument :: rounds (S k) documentId,
        Throw (if decide (resp_status reply = 401%N) then "Invalid API key"
               else "Status check failed: " +:+ pretty (resp_status reply))))
  ∧ (∀ e, status_reply remote k = Throw e →
       processDocument remote []
       = (PostDocument :: rounds (S k) documentId, Throw e)).
Proof. apply processDocument_status_check_failed. Qed.

Lemma failed_status_check_aborts_witness :
  processDocument
    {| upload_reply := uploaded 201;
       status_reply := λ n, if (n <? 1)%nat then polled "processing" None
                            else Normal {| resp_status := 503;
                                           resp_json := {| doc_id := "doc-1";
                                             doc_status := "processing";
                                             doc_pages := None;
                                             doc_error := None |} |};
       result_reply := Throw "unused" |} []
  = (PostDocument :: rounds 2 "doc-1", Throw "Status check failed: 503").
Proof.
  match goal with |- processDocument ?r [] = _ => set (remote := r) end.
  destruct (failed_status_check_aborts remote _ 1 eq_refl eq_refl) as [Hcode _].
  - lia.
  - intros [|n] Hn; [by eexists|lia].
  - by rewrite (Hcode _ eq_refl).
Defined.

(** X9: [getResult] returns the document exactly when the reply has
    status 200 and the document carries no error text; an error text in
    the document makes it throw [OCR failed: <text>] even though the
    status is 200. *)
Theorem getResult_refuses_document_with_error remote documentId trace :
  (∀ data, (getResult remote documentId trace).2 = Normal data ↔
     ∃ response, result_reply remote = Normal response
       ∧ resp_status response = 200%N ∧ resp_json response = data
       ∧ (result_error data = None ∨ result_error data = Some ""))
  ∧ (∀ response e, result_reply remote = Normal response →
       resp_status response = 200%N →
       result_error (resp_json response) = Some e → e ≠ "" →
       (getResult remote documentId trace).2 = Throw ("OCR failed: " +:+ e)).
Proof.
  unfold getResult, perform, mbind, Async_bind. split.
  - intros data. destruct (result_reply remote) as [r|]; simpl.
    + split.
      * case_decide; [done|]. case_decide; [done|].
        assert (resp_status r = 200%N) as Hok by lia.
        destruct (result_error (resp_json r)) as [e|] eqn:E.
        -- unfold truthy. case_bool_decide; simpl; [|done].
           intros [= <-]. exists r. subst e. by repeat split; auto.
        -- intros [= <-]. exists r. by repeat split; auto.
      * intros (response & [= <-] & Hok & <- & Herr).
        rewrite decide_False by (rewrite Hok; done).
        rewrite decide_False by (rewrite Hok; intros ?; done).
        by destruct Herr as [-> | ->].
    + split; [done|]. by intros (response & ? & _).
  - intros response e -> Hok Herr Hne. simpl.
    rewrite decide_False by (rewrite Hok; done).
    rewrite decide_False by (rewrite Hok; intros ?; done).
    rewrite Herr. unfold truthy. by rewrite bool_decide_eq_false_2.
Qed.

Lemma getResult_refuses_document_with_error_witness :
  (getResult
     {| upload_reply := uploaded 201; status_reply := λ _, polled "processed" None;
        result_reply := Normal {| resp_status := 200;
          resp_json := {| result_id := "doc-1"; result_page_count := 0;
                          result_results := [];
                          result_error := Some "page unreadable" |} |} |}
     "doc-1" []).2
  = Throw "OCR failed: page unreadable".
Proof.
  match goal with |- (getResult ?r _ _).2 = _ => set (remote := r) end.
  apply (proj2 (getResult_refuses_document_with_error remote "doc-1" []) _
           "page unreadable" eq_refl eq_refl eq_refl).
  discriminate.
Defined.

End RemoteClientMore.

(** * The multipart body *)

Section Multipart.
Import Api FileHelpers Requests.

Implicit Types (parts : list Uint8Array) (part result : Uint8Array).

Lemma encode_app (a b : string) : encode (a +:+ b) = encode a ++ encode b.
Proof.
  unfold encode. induction a as [|c a IH]; [done|].
  rewrite append_String. simpl. by rewrite IH.
Qed.

Lemma encode_length (s : string) : length (encode s) = String.length s.
Proof. unfold encode. induction s as [|c s IH]; simpl; [done|]. by rewrite IH. Qed.

Lemma set_at_end (copied part rest : Uint8Array) :
  (length part ≤ length rest)%nat →
  set (copied ++ rest) part (length copied)
  = Normal ((copied ++ part) ++ drop (length part) rest).
Proof.
  intros Hfit. unfold set. rewrite decide_True by (rewrite length_app; lia).
  by rewrite take_app_length, drop_app_add, <-app_assoc.
Qed.

Lemma copyParts_concat parts :
  ∀ copied rest, length rest = length (concat parts) →
    copyParts parts (copied ++ rest) (length copied)
    = Normal (copied ++ concat parts).
Proof.
  induction parts as [|part parts IH]; intros copied rest Hlen; simpl in *.
  - by destruct rest.
  - rewrite length_app in Hlen. rewrite set_at_end by lia. simpl.
    replace (length copied + length part)%nat with (length (copied ++ part))
      by (by rewrite length_app).
    rewrite IH by (rewrite length_drop; lia). by rewrite <-app_assoc.
Qed.

Lemma totalLength_concat parts (n : nat) :
  foldl (λ sum part, sum + length part)%nat n parts
  = (n + length (concat parts))%nat.
Proof.
  revert n. induction parts as [|part parts IH]; intros n; simpl; [lia|].
  rewrite IH, length_app. lia.
Qed.

Lemma copyParts_all parts :
  copyParts parts
    (zeroed (foldl (λ sum part, sum + length part)%nat 0%nat parts)) 0
  = Normal (concat parts).
Proof.
  rewrite totalLength_concat.
  apply (copyParts_concat parts [] (zeroed (length (concat parts)))).
  unfold zeroed. by rewrite length_replicate.
Qed.

(** X10: [createMultipartFormData] never fails on the copy of its parts
    and returns the head of the form, then the bytes of the file
    unchanged, then the closing boundary; the bytes of the file can be
    read back from the body at the length of the head, and the body is as
    long as the three together. *)
Theorem createMultipartFormData_layout (boundary : string) (file : File)
    (fileBuffer : Uint8Array) :
  ∃ body, createMultipartFormData boundary file fileBuffer = Normal body
    ∧ body = encode (bodyHead boundary file) ++ fileBuffer
             ++ encode (bodyTail boundary)
    ∧ take (length fileBuffer)
        (drop (String.length (bodyHead boundary file)) body) = fileBuffer
    ∧ length body = (String.length (bodyHead boundary file) + length fileBuffer
                     + String.length (bodyTail boundary))%nat.
Proof.
  eexists. split; [|split; [reflexivity|split]].
  - unfold createMultipartFormData. cbv zeta. rewrite copyParts_all.
    f_equal. unfold bodyHead, bodyTail. simpl.
    rewrite !encode_app, <-!app_assoc. reflexivity.
  - rewrite <-encode_length, drop_app_length. by rewrite take_app_length.
  - rewrite !length_app, !encode_length. lia.
Qed.

End Multipart.

(** * The notices for a failed request *)

Section Notices.
Import Api Examples Messages.

Implicit Types (remote : Remote) (trace : list Action).

Lemma statusCodes_complete (code : N) :
  (100 ≤ code ≤ 599)%N → code ∈ statusCodes.
Proof.
  intros Hrange. unfold statusCodes. apply list_elem_of_fmap.
  exists (N.to_nat code). split; [by rewrite N2Nat.id|].
  apply list_elem_of_In, in_seq. lia.
Qed.

Lemma for_all_statusCodes (check : N → bool) (code : N) :
  forallb check statusCodes = true → (100 ≤ code ≤ 599)%N → check code = true.
Proof.
  intros Hall Hrange. rewrite forallb_forall in Hall.
  apply Hall, list_elem_of_In. by apply statusCodes_complete.
Qed.

(** A failure text that ends in a status code other than 401, 403, 413
    and 415 is shown behind [OCR failed:]; the three texts are those of
    api.ts. *)
Lemma generic_failure_notice (code : N) :
  (100 ≤ code ≤ 599)%N →
  getUserFriendlyErrorMessage ("Upload failed: " +:+ pretty code)
  = noticeForStatus code ("Upload failed: " +:+ pretty code)
  ∧ getUserFriendlyErrorMessage ("Status check failed: " +:+ pretty code)
    = noticeForStatus code ("Status check failed: " +:+ pretty code)
  ∧ getUserFriendlyErrorMessage ("Failed to get result: " +:+ pretty code)
    = noticeForStatus code ("Failed to get result: " +:+ pretty code).
Proof.
  intros Hrange.
  pose (check := λ prefix c,
    bool_decide (getUserFriendlyErrorMessage (prefix +:+ pretty c)
                 = noticeForStatus c (prefix +:+ pretty c))).
  assert (forallb (check "Upload failed: ") statusCodes = true) as H1
    by (vm_compute; reflexivity).
  assert (forallb (check "Status check failed: ") statusCodes = true) as H2
    by (vm_compute; reflexivity).
  assert (forallb (check "Failed to get result: ") statusCodes = true) as H3
    by (vm_compute; reflexivity).
  repeat split.
  - apply (for_all_statusCodes _ code) in H1; [|done].
    by apply bool_decide_eq_true in H1.
  - apply (for_all_statusCodes _ code) in H2; [|done].
    by apply bool_decide_eq_true in H2.
  - apply (for_all_statusCodes _ code) in H3; [|done].
    by apply bool_decide_eq_true in H3.
Qed.

(** X11: whenever [processDocument] fails because a request was
    answered with an HTTP status it does not accept, the notice that
    [getUserFriendlyErrorMessage] makes of the error is decided by that
    status: 401, 403, 413 and 415 give their own notice at every stage
    (upload, status check, result), every other status gives [OCR failed:]
    followed by the error text; and a job that stays in [processing] ends
    as the timeout notice. *)
Theorem processDocument_failure_notice remote :
  (∀ response, upload_reply remote = Normal response →
     (100 ≤ resp_status response ≤ 599)%N → resp_status response ≠ 201%N →
     ∃ e, processDocument remote [] = ([PostDocument], Throw e)
       ∧ getUserFriendlyErrorMessage e
         = noticeForStatus (resp_status response)
             ("Upload failed: " +:+ pretty (resp_status response)))
  ∧ (∀ response k reply,
       upload_reply remote = Normal response → resp_status response = 201%N →
       (k < 60)%nat → (∀ n, n < k → reports remote n "processing")%nat →
       status_reply remote k = Normal reply →
       (100 ≤ resp_status reply ≤ 599)%N → resp_status reply ≠ 200%N →
       ∃ e, (processDocument remote []).2 = Throw e
         ∧ getUserFriendlyErrorMessage e
           = noticeForStatus (resp_status reply)
               ("Status check failed: " +:+ pretty (resp_status reply)))
  ∧ (∀ response k reply,
       upload_reply remote = Normal response → resp_status response = 201%N →
       (k < 60)%nat → (∀ n, n < k → reports remote n "processing")%nat →
       reports remote k "processed" →
       result_reply remote = Normal reply →
       (100 ≤ resp_status reply ≤ 599)%N → resp_status reply ≠ 200%N →
       ∃ e, (processDocument remote []).2 = Throw e
         ∧ getUserFriendlyErrorMessage e
           = noticeForStatus (resp_status reply)
               ("Failed to get result: " +:+ pretty (resp_status reply)))
  ∧ (∀ response,
       upload_reply remote = Normal response → resp_status response = 201%N →
       (∀ n, n < 60 → reports remote n "processing")%nat →
       ∃ e, (processDocument remote []).2 = Throw e
         ∧ getUserFriendlyErrorMessage e
           = "Processing timeout. The document may be too complex or the service is busy. Please try again.").
Proof.
  split; [|split; [|split]].
  - intros response Hreply Hrange Hne.
    destruct (generic_failure_notice _ Hrange) as (Hgen & _ & _).
    assert (∃ e, (uploadDocument remote []).2 = Throw e
              ∧ getUserFriendlyErrorMessage e
                = noticeForStatus (resp_status response)
                    ("Upload failed: " +:+ pretty (resp_status response)))
      as (e & He & Hnotice).
    { unfold uploadDocument, perform, mbind, Async_bind. rewrite Hreply.
      cbv beta iota.
      destruct (decide (resp_status response = 403%N)) as [H|H403];
        [rewrite H; eexists; split; reflexivity|].
      destruct (decide (resp_status response = 415%N)) as [H|H415];
        [rewrite H; eexists; split; reflexivity|].
      destruct (decide (resp_status response = 413%N)) as [H|H413];
        [rewrite H; eexists; split; reflexivity|].
      destruct (decide (resp_status response = 401%N)) as [H|H401];
        [rewrite H; eexists; split; reflexivity|].
      rewrite decide_True by done. eexists. split; [reflexivity|].
      exact Hgen. }
    exists e. split; [|done]. by apply processDocument_upload_failed.
  - intros response k reply Hreply Hok Hk Hp Hr Hrange Hne.
    destruct (generic_failure_notice _ Hrange) as (_ & Hgen & _).
    destruct (processDocument_status_check_failed remote response k
                Hreply Hok Hk Hp) as [Hcode _].
    rewrite (Hcode reply Hr Hne). simpl. eexists. split; [done|].
    destruct (decide (resp_status reply = 401%N)) as [H|H401]; [|done].
    rewrite H. reflexivity.
  - intros response k reply Hreply Hok Hk Hp (st & Hst & Hstok & Hdone) Hr
      Hrange Hne.
    destruct (generic_failure_notice _ Hrange) as (_ & _ & Hgen).
    rewrite (processDocument_after_polls _ _ k Hreply Hok Hk Hp).
    replace (60 - k)%nat with (S (59 - k)) by lia.
    rewrite (pollLoop_step _ _ _ _ _ st) by done. cbv zeta.
    rewrite Hdone, decide_True by done.
    unfold getResult, perform, mbind, Async_bind. rewrite Hr. cbv beta iota.
    destruct (decide (resp_status reply = 401%N)) as [H|H401];
      [rewrite H; eexists; split; reflexivity|].
    rewrite decide_True by done. by eexists.
  - intros response Hreply Hok Hp.
    rewrite (processDocument_uploaded _ _ Hreply Hok).
    replace maxAttempts with (60 + 0)%nat by done.
    rewrite pollLoop_processing by (intros n Hn; apply Hp; lia).
    by eexists.
Qed.

Lemma processDocument_failure_notice_witness :
  ∃ e, processDocument (refused 429) [] = ([PostDocument], Throw e)
    ∧ getUserFriendlyErrorMessage e = "OCR failed: Upload failed: 429".
Proof.
  destruct (proj1 (processDocument_failure_notice (refused 429)) _ eq_refl)
    as (e & He & Hnotice); [simpl; lia|done|].
  exists e. split; [exact He|exact Hnotice].
Defined.

End Notices.

(** * The file helpers *)

Section FileHelpersFacts.
Import Examples.

Lemma endsWith_spec (s suffix : string) :
  endsWith s suffix = true ↔ ∃ before, s = before +:+ suffix.
Proof.
  induction s as [|c s IH]; simpl.
  - rewrite orb_false_r, bool_decide_eq_true. split.
    + intros <-. by exists "".
    + intros [[|d before] Heq]; [done|]. by rewrite append_String in Heq.
  - rewrite orb_true_iff, bool_decide_eq_true, IH. split.
    + intros [<-|[before ->]]; [by exists ""|]. by exists (String c before).
    + intros [[|d before] Heq]; [by left|]. right.
      rewrite append_String in Heq. injection Heq as _ ->. by exists before.
Qed.

Lemma after_last_dot_Some (s ext : string) :
  after_last_dot s = Some ext → ∃ before, s = before +:+ String "." ext.
Proof.
  induction s as [|c s IH]; simpl; [done|].
  destruct (after_last_dot s) as [e|].
  - intros [= ->]. destruct (IH eq_refl) as [before ->].
    by exists (String c before).
  - case_decide; [|done]. intros [= ->]. subst c. by exists "".
Qed.

Lemma endsWith_dot_extension (s ext : string) :
  after_last_dot ext = None →
  endsWith s (String "." ext) = bool_decide (after_last_dot s = Some ext).
Proof.
  intros Hext. apply eq_true_iff_eq.
  rewrite endsWith_spec, bool_decide_eq_true. split.
  - intros [before ->]. by apply after_last_dot_append.
  - apply after_last_dot_Some.
Qed.

Lemma ascii_lower_dot (c : ascii) : ascii_lower c = "."%char ↔ c = "."%char.
Proof.
  destruct c as [[] [] [] [] [] [] [] []]; vm_compute; split; congruence.
Qed.

Lemma after_last_dot_toLowerCase (s : string) :
  after_last_dot (toLowerCase s) = toLowerCase <$> after_last_dot s.
Proof.
  induction s as [|c s IH]; simpl; [done|]. rewrite IH.
  destruct (after_last_dot s) as [e|]; simpl; [done|].
  destruct (decide (c = "."%char)) as [->|Hne].
  - by rewrite decide_True.
  - rewrite decide_False; [done|]. by rewrite ascii_lower_dot.
Qed.

Lemma extname_toLowerCase (fileName : string) :
  toLowerCase (extname fileName) = extname (toLowerCase fileName).
Proof.
  unfold extname. rewrite after_last_dot_toLowerCase.
  by destruct (after_last_dot fileName).
Qed.

(** X12: the two tests for a supported file agree. For a file whose
    extension is the text after the last dot of its name, the test of
    utils.ts on the name (does the lower-cased name end in one of the
    dotted extensions) gives the same answer as the test of the
    auto-processor on the extension. *)
Theorem supported_file_tests_agree (file : TFile) :
  extension file = extname (name file) →
  FileHelpers.isSupportedFile (name file) = AutoProcessor.isSupportedFile file.
Proof.
  intros Hext. unfold FileHelpers.isSupportedFile, AutoProcessor.isSupportedFile.
  rewrite Hext, extname_toLowerCase. unfold extname.
  unfold FileHelpers.SUPPORTED_EXTENSIONS. cbn [existsb].
  rewrite !endsWith_dot_extension by reflexivity.
  destruct (after_last_dot (toLowerCase (name file))) as [e|]; [|reflexivity].
  cbn [default].
  repeat (match goal with
          | |- context [bool_decide (Some e = Some ?x)] =>
              destruct (decide (e = x)) as [->|?];
              [reflexivity
              |rewrite (bool_decide_eq_false_2 (Some e = Some x)) by congruence]
          end).
  symmetry. apply bool_decide_eq_false. unfold supportedExtensions.
  rewrite !elem_of_cons, elem_of_nil. tauto.
Qed.

Lemma supported_file_tests_agree_witness :
  FileHelpers.isSupportedFile (name scanB) = true
  ∧ FileHelpers.isSupportedFile (name sidecarA) = false.
Proof.
  rewrite (supported_file_tests_agree scanB eq_refl).
  rewrite (supported_file_tests_agree sidecarA eq_refl).
  split; reflexivity.
Defined.

(** X13: [fileToBlob] of a supported file that the vault holds returns
    the file's name, exactly the bytes stored at its path, and a type of
    its own from the table, an image type or [application/pdf], never the
    fallback [application/octet-stream]; when nothing can be read at the
    path it throws. *)
Theorem supported_file_keeps_name_bytes_and_type (vault : Vault) (file : TFile) :
  AutoProcessor.isSupportedFile file = true →
  (∀ content, vault !! path file = Some (FileNode content) →
     ∃ blob, FileHelpers.fileToBlob vault file = Normal blob
       ∧ FileHelpers.file_name blob = name file
       ∧ FileHelpers.file_bytes blob = encode content
       ∧ FileHelpers.file_type blob ≠ "application/octet-stream"
       ∧ (startsWith (FileHelpers.file_type blob) "image/" = true
          ∨ (FileHelpers.file_type blob = "application/pdf"
             ∧ toLowerCase (extension file) = "pdf")))
  ∧ ((∀ content, vault !! path file ≠ Some (FileNode content)) →
       ∃ e, FileHelpers.fileToBlob vault file = Throw e).
Proof.
  intros Hsup. split.
  - intros content Hv. unfold FileHelpers.fileToBlob, vault_read.
    rewrite Hv. simpl. eexists. split; [done|]. simpl.
    split; [done|]. split; [done|].
    unfold AutoProcessor.isSupportedFile in Hsup.
    apply bool_decide_eq_true in Hsup. unfold supportedExtensions in Hsup.
    unfold FileHelpers.getMimeType.
    repeat (apply elem_of_cons in Hsup as [->|Hsup];
            [split; [discriminate|]; first [by left | by right]|]).
    by apply elem_of_nil in Hsup.
  - intros Hnone. unfold FileHelpers.fileToBlob, vault_read.
    destruct (vault !! path file) as [[|content]|] eqn:E; simpl; eauto.
    by destruct (Hnone content).
Qed.

Lemma supported_file_keeps_name_bytes_and_type_witness :
  ∃ blob, FileHelpers.fileToBlob {[ "Inbox/b.pdf" := FileNode "%PDF-1.7" ]} scanB
          = Normal blob
    ∧ FileHelpers.file_bytes blob = encode "%PDF-1.7"
    ∧ FileHelpers.file_type blob ≠ "application/octet-stream".
Proof.
  destruct (proj1 (supported_file_keeps_name_bytes_and_type
                     {[ "Inbox/b.pdf" := FileNode "%PDF-1.7" ]} scanB eq_refl)
              "%PDF-1.7")
    as (blob & Hb & _ & Hbytes & Htype & _); [vm_compute; reflexivity|].
  exists blob. split; [exact Hb|]. split; [exact Hbytes|exact Htype].
Defined.

End FileHelpersFacts.

(** * Further properties of the auto-processor *)

Section AttemptFacts.
Context `{!JsonRuntime}.
Import Attempt.

Implicit Types (settings : HandwritingOCRSettings) (vault : Vault)
  (file : TFile).

Lemma markAsProcessed_cases vault file st message now :
  let text := JSON_stringify (metadata_json
      {| processedAt := now; fileHash := getFileHash file; status := st;
         errorMessage := message |}) in
  markAsProcessed vault file st message now
  = if decide (vault !! getMetadataFilePath file = Some FolderNode)
    then (vault, ["Failed to create metadata file for " +:+ path file +:+ ":"])
    else (<[getMetadataFilePath file := FileNode text]> vault, []).
Proof.
  unfold markAsProcessed, getAbstractFileByPath, vault_modify, vault_create.
  destruct (vault !! getMetadataFilePath file) as [[|content]|] eqn:E;
    rewrite ?E; simpl; repeat case_decide; done.
Qed.

(** X14: [markAsProcessed] fails only when a folder stands at the
    sidecar's path; it then leaves the vault as it was and writes one line
    to the console. In every other case it logs nothing and the vault
    differs from the one before at the sidecar's path only, which holds
    the new record. *)
Theorem markAsProcessed_fails_only_on_folder vault file st message now :
  ((markAsProcessed vault file st message now).2 = [] ↔
     vault !! getMetadataFilePath file ≠ Some FolderNode)
  ∧ (vault !! getMetadataFilePath file = Some FolderNode →
       markAsProcessed vault file st message now
       = (vault, ["Failed to create metadata file for " +:+ path file +:+ ":"]))
  ∧ (vault !! getMetadataFilePath file ≠ Some FolderNode →
       (markAsProcessed vault file st message now).1
       = <[getMetadataFilePath file :=
             FileNode (JSON_stringify (metadata_json
               {| processedAt := now; fileHash := getFileHash file;
                  status := st; errorMessage := message |}))]> vault).
Proof.
  rewrite markAsProcessed_cases. cbv zeta.
  case_decide as Hfolder; simpl; repeat split; try done.
  all: try (intros Hnot; by destruct Hnot).
Qed.

(** X15: the last record written wins. Writing a record for a file and
    then another one leaves the vault, and the console output of the
    second write, exactly as the second write alone does: a file never
    has two records. *)
Theorem markAsProcessed_last_write_wins vault file st1 message1 now1 st2
    message2 now2 :
  markAsProcessed (markAsProcessed vault file st1 message1 now1).1 file st2
    message2 now2
  = markAsProcessed vault file st2 message2 now2.
Proof.
  rewrite !markAsProcessed_cases. cbv zeta.
  destruct (decide (vault !! getMetadataFilePath file = Some FolderNode))
    as [Hfolder|Hfree]; simpl.
  - by rewrite decide_True.
  - rewrite decide_False by (rewrite lookup_insert_eq; done).
    by rewrite insert_insert_eq.
Qed.

Lemma isProcessed_after_error vault file content now message :
  vault !! getMetadataFilePath file = Some (FileNode content) →
  JSON_parse content = Normal (metadata_json
    {| processedAt := now; fileHash := getFileHash file; status := error;
       errorMessage := message |}) →
  isProcessed vault file = Normal false.
Proof.
  intros Hv Hp. apply isProcessed_false.
  intros (c & m & Hc & Hm & _ & Hst).
  rewrite Hv in Hc. injection Hc as <-. rewrite Hp in Hm. injection Hm as <-.
  destruct message; discriminate.
Qed.

Lemma shouldProcess_after_success_record settings vault file now :
  let record := metadata_json
      {| processedAt := now; fileHash := getFileHash file; status := success;
         errorMessage := None |} in
  JSON_parse (JSON_stringify record) = Normal record →
  shouldProcess settings
    (<[getMetadataFilePath file := FileNode (JSON_stringify record)]> vault)
    file
  = Normal false.
Proof.
  intros record Hrt.
  rewrite shouldProcess_eligible. destruct (eligible settings file); [|done].
  pose proof (isProcessed_after_success
                (<[getMetadataFilePath file := FileNode (JSON_stringify record)]>
                   vault)
                file (JSON_stringify record) now
                (lookup_insert_eq _ _ _) Hrt (stat file)) as Hp.
  destruct file as [? ? ? ? []]. unfold modified in Hp. simpl in *.
  rewrite Hp. simpl. by rewrite bool_decide_eq_true_2.
Qed.

Lemma processFile_chosen action vault file
    (extractToNewNote appendToSourceNote : OutputAction) now :
  let ran := (if decide (action = new_note) then extractToNewNote
              else appendToSourceNote) file vault in
  processFile action vault file extractToNewNote appendToSourceNote now
  = match ran.2 with
    | Normal _ =>
        let written := markAsProcessed ran.1 file success None now in
        {| vaultAfter := written.1;
           notices := ["Auto-processing: " +:+ name file];
           errors := written.2; outcome := Normal () |}
    | Throw message =>
        let written := markAsProcessed ran.1 file error (Some message) now in
        {| vaultAfter := written.1;
           notices := ["Auto-processing: " +:+ name file];
           errors := ("Auto-processing failed for " +:+ path file +:+ ": "
                      +:+ message) :: written.2;
           outcome := Throw message |}
    end.
Proof. unfold processFile. by destruct (decide (action = new_note)). Qed.

(** X16: when the chosen output action succeeds, [processFile] succeeds,
    shows its notice and writes a success record on top of what the action
    left in the vault: unless a folder stands at the sidecar's path,
    nothing is logged and, with a runtime that reads the record back,
    [shouldProcess] answers [false] for the file afterwards. *)
Theorem processFile_success_is_recorded settings action vault file
    (extractToNewNote appendToSourceNote : OutputAction) now :
  let chosen := if decide (action = new_note) then extractToNewNote
                else appendToSourceNote in
  let run := processFile action vault file extractToNewNote appendToSourceNote
               now in
  let record := metadata_json
      {| processedAt := now; fileHash := getFileHash file; status := success;
         errorMessage := None |} in
  (chosen file vault).2 = Normal () →
  (chosen file vault).1 !! getMetadataFilePath file ≠ Some FolderNode →
  outcome run = Normal ()
  ∧ notices run = ["Auto-processing: " +:+ name file]
  ∧ errors run = []
  ∧ vaultAfter run
    = <[getMetadataFilePath file := FileNode (JSON_stringify record)]>
        (chosen file vault).1
  ∧ (JSON_parse (JSON_stringify record) = Normal record →
     shouldProcess settings (vaultAfter run) file = Normal false).
Proof.
  intros chosen run record Hok Hfree. unfold run.
  rewrite processFile_chosen. fold chosen. cbv zeta.
  rewrite Hok, markAsProcessed_cases. cbv zeta.
  rewrite decide_False by done. simpl. repeat (split; [done|]).
  apply shouldProcess_after_success_record.
Qed.



End AttemptFacts.

Section WatchFolder.

Lemma rev_app_append (s t : string) : String.rev_app s t = String.rev s +:+ t.
Proof.
  unfold String.rev. revert t. induction s as [|c s IH]; intros t; simpl; [done|].
  rewrite IH, (IH (String c "")), append_assoc. by rewrite append_String.
Qed.

Lemma rev_String (c : ascii) (s : string) :
  String.rev (String c s) = String.rev s +:+ String c "".
Proof. unfold String.rev at 1. simpl. apply rev_app_append. Qed.

Lemma append_empty_r (s : string) : s +:+ "" = s.
Proof. induction s as [|c s IH]; [done|]. by rewrite append_String, IH. Qed.

Lemma append_eq_empty (s t : string) : s +:+ t = "" → s = "" ∧ t = "".
Proof. destruct s; [done|]. by rewrite append_String. Qed.

Lemma rev_append (s t : string) :
  String.rev (s +:+ t) = String.rev t +:+ String.rev s.
Proof.
  induction s as [|c s IH].
  - change ("" +:+ t) with t. change (String.rev "") with "".
    by rewrite append_empty_r.
  - rewrite append_String, !rev_String, IH. by rewrite append_assoc.
Qed.

Lemma slashes_snoc (n : nat) : slashes n +:+ "/" = String "/" (slashes n).
Proof.
  induction n as [|n IH]; [done|]. simpl. by rewrite append_String, IH.
Qed.

Lemma rev_slashes (n : nat) : String.rev (slashes n) = slashes n.
Proof.
  induction n as [|n IH]; [done|]. simpl.
  by rewrite rev_String, IH, slashes_snoc.
Qed.

Lemma drop_leading_slashes_prefix (n : nat) (s : string) :
  drop_leading_slashes (slashes n +:+ s) = drop_leading_slashes s.
Proof. induction n as [|n IH]; [done|]. by simpl. Qed.

Lemma drop_leading_slashes_decompose (s : string) :
  ∃ n, s = slashes n +:+ drop_leading_slashes s.
Proof.
  induction s as [|c s [n IH]]; [by exists 0|].
  destruct (decide (c = "/"%char)) as [->|Hne].
  - exists (S n). simpl. by rewrite append_String, <-IH.
  - exists 0.
    assert (drop_leading_slashes (String c s) = String c s) as ->; [|done].
    destruct c as [[] [] [] [] [] [] [] []]; try done.
Qed.

Lemma drop_leading_slashes_keeps (s t : string) :
  drop_leading_slashes s ≠ "" →
  drop_leading_slashes (s +:+ t) = drop_leading_slashes s +:+ t.
Proof.
  induction s as [|c s IH]; [done|]. intros Hne. rewrite append_String.
  destruct (decide (c = "/"%char)) as [->|Hc].
  - simpl in *. by apply IH.
  - destruct c as [[] [] [] [] [] [] [] []]; try done.
Qed.

Lemma drop_leading_slashes_all (n : nat) : drop_leading_slashes (slashes n) = "".
Proof. induction n as [|n IH]; [done|]. by simpl. Qed.

Lemma strip_slashes_outer (n m : nat) (w : string) :
  strip_slashes (slashes n +:+ w +:+ slashes m) = strip_slashes w.
Proof.
  unfold strip_slashes. rewrite drop_leading_slashes_prefix.
  destruct (decide (drop_leading_slashes w = "")) as [Hempty|Hne].
  - assert (drop_leading_slashes (w +:+ slashes m) = "") as ->;
      [|by rewrite Hempty].
    destruct (drop_leading_slashes_decompose w) as [k Hw].
    rewrite Hempty, append_empty_r in Hw. rewrite Hw.
    by rewrite drop_leading_slashes_prefix, drop_leading_slashes_all.
  - rewrite drop_leading_slashes_keeps by done.
    by rewrite rev_append, rev_slashes, drop_leading_slashes_prefix.
Qed.

(** X18: leading and trailing slashes in the watch-folder setting do not
    matter. [isInWatchFolder] gives the same answer for [Inbox],
    [/Inbox], [Inbox/] and [//Inbox///], and so does [shouldProcess] as
    long as the folder itself is not the empty text. *)
Theorem watch_folder_ignores_outer_slashes `{!JsonRuntime} (enabled : bool)
    (n m : nat) (w : string) (vault : Vault) (file : TFile) :
  isInWatchFolder
    {| enableAutoProcessing := enabled;
       watchFolder := slashes n +:+ w +:+ slashes m |} file
  = isInWatchFolder {| enableAutoProcessing := enabled; watchFolder := w |} file
  ∧ (w ≠ "" →
     shouldProcess
       {| enableAutoProcessing := enabled;
          watchFolder := slashes n +:+ w +:+ slashes m |} vault file
     = shouldProcess {| enableAutoProcessing := enabled; watchFolder := w |}
         vault file).
Proof.
  assert (isInWatchFolder
            {| enableAutoProcessing := enabled;
               watchFolder := slashes n +:+ w +:+ slashes m |} file
          = isInWatchFolder
              {| enableAutoProcessing := enabled; watchFolder := w |} file)
    as Hsame.
  { unfold isInWatchFolder. simpl. by rewrite strip_slashes_outer. }
  split; [done|]. intros Hw. unfold shouldProcess. rewrite Hsame. simpl.
  assert (truthy (slashes n +:+ w +:+ slashes m) = truthy w) as ->; [|done].
  unfold truthy. rewrite (bool_decide_eq_false_2 (w = "")) by done.
  rewrite bool_decide_eq_false_2; [done|].
  intros [_ [Hempty _]%append_eq_empty]%append_eq_empty. done.
Qed.

End WatchFolder.

(** * The fingerprint and the record *)

Section FingerprintFacts.
Context `{!JsonRuntime}.
Import Examples.

(** X21: the fingerprint of a file is exactly its modification time and
    its size: two files have the same fingerprint if and only if both
    agree. So once a success record is stored for a file, a later state
    of that file is skipped by [isProcessed] exactly when the two are
    unchanged, whatever else changed. *)
Theorem fingerprint_is_mtime_and_size (vault : Vault) (file : TFile)
    (content : string) (now : N) :
  (∀ other : TFile,
     getFileHash file = getFileHash other ↔
     mtime (stat file) = mtime (stat other)
     ∧ size (stat file) = size (stat other))
  ∧ (vault !! getMetadataFilePath file = Some (FileNode content) →
     JSON_parse content = Normal (metadata_json
       {| processedAt := now; fileHash := getFileHash file; status := success;
          errorMessage := None |}) →
     ∀ st, isProcessed vault (modified file st) = Normal true ↔
           mtime st = mtime (stat file) ∧ size st = size (stat file)).
Proof.
  assert (∀ other : TFile,
     getFileHash file = getFileHash other ↔
     mtime (stat file) = mtime (stat other)
     ∧ size (stat file) = size (stat other)) as Hinj.
  { intros other. rewrite getFileHash_inj.
    destruct (stat file), (stat other); simpl. split.
    - by intros [= -> ->].
    - by intros [-> ->]. }
  split; [done|]. intros Hv Hp st.
  rewrite (isProcessed_after_success vault file content now Hv Hp st).
  split.
  - intros [= Hb]. apply bool_decide_eq_true in Hb.
    apply Hinj in Hb. simpl in Hb. by destruct Hb as [-> ->].
  - intros [H1 H2]. f_equal. apply bool_decide_eq_true, Hinj. by simpl.
Qed.

End FingerprintFacts.

Section FingerprintInstance.
Import Examples.

Lemma fingerprint_is_mtime_and_size_witness :
  @isProcessed tableRuntime (withRecord successText)
    (modified scanA {| mtime := 1700000000000; size := 1024 |}) = Normal true.
Proof.
  apply (proj2 (@fingerprint_is_mtime_and_size tableRuntime
                  (withRecord successText) scanA successText 1700000001000)).
  - vm_compute. reflexivity.
  - vm_compute. reflexivity.
  - split; reflexivity.
Defined.

End FingerprintInstance.

(** * The command that copies the text of a file *)

Section CommandFacts.
Import Api FileHelpers Messages Commands.

(** X20: [extractToClipboard] sends no request at all when no API key
    is configured or when the file is larger than 20MB, and then shows one
    notice and leaves the clipboard alone. Otherwise the clipboard is
    written exactly when the file could be read, [processDocument]
    returned a document and the write succeeded; it then holds the
    transcripts of the pages in their order, separated by a blank line,
    and in every other case the last notice is the one
    [getUserFriendlyErrorMessage] makes of the error. *)
Theorem extractToClipboard_outcomes (api : option Remote) (vault : Vault)
    (file : TFile) (writeText : string → Completion unit) :
  let run := extractToClipboard api vault file writeText in
  (api = None ∨ (20 * 1024 * 1024 < size (stat file))%N →
     requests run = [] ∧ clipboard run = None ∧ length (shown run) = 1)
  ∧ (∀ text, clipboard run = Some text ↔
       ∃ remote blob result,
         api = Some remote
         ∧ (size (stat file) ≤ 20 * 1024 * 1024)%N
         ∧ fileToBlob vault file = Normal blob
         ∧ (processDocument remote []).2 = Normal result
         ∧ text = join (String LF (String LF "")) (map snd (result_results result))
         ∧ writeText text = Normal ())
  ∧ (∀ remote e, api = Some remote →
       (size (stat file) ≤ 20 * 1024 * 1024)%N →
       (fileToBlob vault file = Throw e
        ∨ ((∃ blob, fileToBlob vault file = Normal blob)
           ∧ (processDocument remote []).2 = Throw e)) →
       shown run = ["Processing with Handwriting OCR...";
                    getUserFriendlyErrorMessage e]
       ∧ clipboard run = None).
Proof.
  intros run. unfold run, extractToClipboard, validateFileSize, maxSize.
  split; [|split].
  - intros [->|Hbig]; [done|]. destruct api as [remote|]; [|done].
    destruct (N.leb_spec (size (stat file)) (20 * 1024 * 1024)); [lia|done].
  - intros text. destruct api as [remote|]; simpl.
    2: { split; [done|]. by intros (? & ? & ? & ? & _). }
    destruct (N.leb_spec (size (stat file)) (20 * 1024 * 1024)) as [Hle|Hgt];
      simpl.
    2: { split; [done|]. intros (? & ? & ? & _ & Hle & _). lia. }
    destruct (fileToBlob vault file) as [blob|e] eqn:Eb; simpl.
    2: { split; [done|]. by intros (? & ? & ? & _ & _ & ? & _). }
    destruct (processDocument remote []) as [trace [result|e]] eqn:Ep; simpl.
    2: { split; [done|]. intros (r & ? & ? & [= <-] & _ & _ & Hr & _).
         rewrite Ep in Hr. done. }
    destruct (writeText _) as [[]|e] eqn:Ew; simpl.
    + split.
      * intros [= <-]. exists remote, blob, result. rewrite Ep. by repeat split.
      * intros (r & b & res & [= <-] & _ & _ & Hres & -> & _).
        rewrite Ep in Hres. simpl in Hres. by injection Hres as <-.
    + split; [done|].
      intros (r & b & res & [= <-] & _ & _ & Hres & -> & Hw).
      rewrite Ep in Hres. simpl in Hres. injection Hres as <-.
      rewrite Ew in Hw. done.
  - intros remote e -> Hle Hfail. simpl.
    destruct (N.leb_spec (size (stat file)) (20 * 1024 * 1024)) as [_|Hgt];
      [|lia]. simpl.
    destruct Hfail as [-> | [[blob ->] Hfail]]; [done|].
    by rewrite Hfail.
Qed.

End CommandFacts.

(** * The further theorems at concrete inputs *)

Section MoreInstances.
Import Api Examples MoreExamples Attempt Messages Commands.

Lemma markAsProcessed_fails_only_on_folder_witness :
  @markAsProcessed tableRuntime blocked scanA success None 1700000001000
  = (blocked, ["Failed to create metadata file for Inbox/a.png:"]).
Proof.
  apply (proj1 (proj2 (@markAsProcessed_fails_only_on_folder tableRuntime
                         blocked scanA success None 1700000001000))).
  vm_compute. reflexivity.
Defined.

Lemma processFile_success_is_recorded_witness :
  let run := @processFile tableRuntime new_note ∅ scanA writesNote outOfCredits
               1700000001000 in
  outcome run = Normal () ∧ errors run = []
  ∧ @shouldProcess tableRuntime settings (vaultAfter run) scanA = Normal false.
Proof.
  destruct (@processFile_success_is_recorded tableRuntime settings new_note ∅
              scanA writesNote outOfCredits 1700000001000)
    as (Hout & _ & Herr & _ & Hskip);
    [reflexivity|vm_compute; discriminate|].
  split; [exact Hout|]. split; [exact Herr|].
  apply Hskip. vm_compute. reflexivity.
Defined.


Lemma watch_folder_ignores_outer_slashes_witness :
  @shouldProcess tableRuntime
    {| enableAutoProcessing := true; watchFolder := "/Inbox/" |} ∅ scanA
  = @shouldProcess tableRuntime
      {| enableAutoProcessing := true; watchFolder := "Inbox" |} ∅ scanA.
Proof.
  apply (proj2 (@watch_folder_ignores_outer_slashes tableRuntime true 1 1
                  "Inbox" ∅ scanA)).
  discriminate.
Defined.


Lemma extractToClipboard_outcomes_witness :
  requests (extractToClipboard (Some stuck) ∅ tooLarge (λ _, Normal ())) = []
  ∧ clipboard (extractToClipboard (Some stuck) ∅ tooLarge (λ _, Normal ()))
    = None.
Proof.
  destruct (proj1 (extractToClipboard_outcomes (Some stuck) ∅ tooLarge
                     (λ _, Normal ())))
    as (Hreq & Hclip & _); [right; vm_compute; reflexivity|].
  split; [exact Hreq|exact Hclip].
Defined.

End MoreInstances.
